(** * ByteArray: a cursor-addressed binary buffer (src/index.ts)

    A shallow embedding of the [ByteArray] class and of the parts of
    Node's [Buffer] it calls, followed by the properties of the
    specification that concern storage growth, the cursor, the primitive
    codec and bulk copies.

    Modelling conventions.
    - A JavaScript [number] is either an integral value [Int z] or any
      other binary64 value [Flt f] (non-integral, infinite, NaN), the
      latter carried as an IEEE-754 [spec_float].  Integral values are
      exact: the rounding of integers beyond 2^53 is outside the model.
    - Storage is a [list byte]; typed-array stores outside the valid
      index range are ignored, as in JavaScript.  Node's allocation limit
      ([kMaxLength]) is not modelled: storage is unbounded.
    - A method is a state transformer that either returns or throws; the
      state reached at a [throw] is kept, since JavaScript does not roll
      back the mutations made before an exception.
    - Objects live in a heap indexed by references, so that a method that
      receives another [ByteArray] may receive the receiver itself. *)

From Stdlib Require Import ZArith Lia Bool String.
From Stdlib Require Import Floats.SpecFloat.
From Stdlib Require Strings.Byte.
From stdpp Require Import base option list gmap.

Local Open Scope Z_scope.

(** ** JavaScript numbers *)

Inductive number : Type :=
| Int (z : Z)
| Flt (f : spec_float).

Module Number.

Definition prec : Z := 53.
Definition emax : Z := 1024.

(** The binary64 value nearest to an integer. *)
Definition Z_to_SF (z : Z) : spec_float := binary_normalize prec emax z 0 false.

Definition to_float (x : number) : spec_float :=
  match x with
  | Int z => Z_to_SF z
  | Flt f => f
  end.

(** The integer a float denotes, when it denotes one. *)
Definition SF_to_Z (f : spec_float) : option Z :=
  match f with
  | S754_zero _ => Some 0
  | S754_finite s m e =>
      if 0 <=? e then Some (cond_Zopp s (Z.pos m * 2 ^ e))
      else if Z.pos m mod 2 ^ (- e) =? 0
           then Some (cond_Zopp s (Z.pos m / 2 ^ (- e)))
           else None
  | S754_infinity _ | S754_nan => None
  end.

(** Truncation toward zero; [None] on NaN and the infinities. *)
Definition SF_trunc (f : spec_float) : option Z :=
  match f with
  | S754_zero _ => Some 0
  | S754_finite s m e =>
      if 0 <=? e then Some (cond_Zopp s (Z.pos m * 2 ^ e))
      else Some (cond_Zopp s (Z.pos m / 2 ^ (- e)))
  | S754_infinity _ | S754_nan => None
  end.

(** The least integer not below a finite float. *)
Definition SF_ceil (f : spec_float) : option Z :=
  match f with
  | S754_zero _ => Some 0
  | S754_finite s m e =>
      if 0 <=? e then Some (cond_Zopp s (Z.pos m * 2 ^ e))
      else if s then Some (- (Z.pos m / 2 ^ (- e)))
           else Some (- ((- Z.pos m) / 2 ^ (- e)))
  | S754_infinity _ | S754_nan => None
  end.

Definition of_float (f : spec_float) : number :=
  match SF_to_Z f with
  | Some z => Int z
  | None => Flt f
  end.

(** [Number.isInteger] together with the integer itself. *)
Definition to_int (x : number) : option Z :=
  match x with
  | Int z => Some z
  | Flt f => SF_to_Z f
  end.

Definition isInteger (x : number) : bool :=
  match to_int x with Some _ => true | None => false end.

Definition isNaN (x : number) : bool :=
  match x with
  | Flt S754_nan => true
  | _ => false
  end.

Definition add (x y : number) : number :=
  match x, y with
  | Int a, Int b => Int (a + b)
  | _, _ => of_float (SFadd prec emax (to_float x) (to_float y))
  end.

Definition sub (x y : number) : number :=
  match x, y with
  | Int a, Int b => Int (a - b)
  | _, _ => of_float (SFsub prec emax (to_float x) (to_float y))
  end.

(** [x < y], [x <= y] and [x === y]; all false when an operand is NaN. *)
Definition ltb (x y : number) : bool :=
  match x, y with
  | Int a, Int b => a <? b
  | _, _ => SFltb (to_float x) (to_float y)
  end.

Definition leb (x y : number) : bool :=
  match x, y with
  | Int a, Int b => a <=? b
  | _, _ => SFleb (to_float x) (to_float y)
  end.

Definition eqb (x y : number) : bool :=
  match x, y with
  | Int a, Int b => a =? b
  | _, _ => SFeqb (to_float x) (to_float y)
  end.

(** Two's complement wrap to 32 bits, signed and unsigned. *)
Definition wrap32 (z : Z) : Z := (z + 2 ^ 31) mod 2 ^ 32 - 2 ^ 31.

Definition trunc (x : number) : option Z :=
  match x with
  | Int z => Some z
  | Flt f => SF_trunc f
  end.

(** [ToInt32] and [ToUint32]: NaN and the infinities become 0. *)
Definition ToInt32 (x : number) : Z :=
  match trunc x with
  | Some z => wrap32 z
  | None => 0
  end.

Definition ToUint32 (x : number) : Z :=
  match trunc x with
  | Some z => z mod 2 ^ 32
  | None => 0
  end.

(** The bitwise operators work on [ToInt32] of their operands;
    a shift uses the low five bits of its count. *)
Definition band (x y : number) : number :=
  Int (Z.land (ToInt32 x) (ToInt32 y)).

Definition shl (x y : number) : number :=
  Int (wrap32 (Z.shiftl (ToInt32 x) (ToUint32 y mod 32))).

(** 1.5, the non-integral value used in the examples. *)
Definition one_and_a_half : number := Flt (S754_finite false 6755399441055744 (-52)).

Definition NaN : number := Flt S754_nan.

End Number.

(** ** Bytes *)

Abbreviation byte := Byte.byte.

Definition byte_of_Z (z : Z) : byte :=
  match Byte.of_N (Z.to_N (z mod 256)) with
  | Some b => b
  | None => Byte.x00
  end.

Definition Z_of_byte (b : byte) : Z := Z.of_N (Byte.to_N b).

(** ** Exceptions and the method monad *)

(** The JavaScript error classes the code throws or lets through. *)
Inductive error : Type :=
| TypeError
| RangeError
| Error.

Inductive outcome (A : Type) : Type :=
| Ret (a : A)
| Throw (e : error).

Arguments Ret {A} a.
Arguments Throw {A} e.

(** A method over a state [S]: a result or an exception, and the state
    left behind in either case. *)
Definition M (S A : Type) : Type := S -> outcome A * S.

Definition ret {S A} (a : A) : M S A := fun s => (Ret a, s).

Definition throw {S A} (e : error) : M S A := fun s => (Throw e, s).

Definition bind {S A B} (m : M S A) (k : A -> M S B) : M S B :=
  fun s =>
    match m s with
    | (Ret a, s') => k a s'
    | (Throw e, s') => (Throw e, s')
    end.

Definition gets {S A} (f : S -> A) : M S A := fun s => (Ret (f s), s).

Definition modify {S} (f : S -> S) : M S unit := fun s => (Ret tt, f s).

Definition lift {S A} (o : outcome A) : M S A := fun s => (o, s).

Declare Scope method_scope.
Delimit Scope method_scope with method.

Notation "'let!' x ':=' m 'in' k" :=
  (bind m (fun x => k))
  (at level 10, x name, m at level 100, k at level 200)
  : method_scope.

Notation "m '>>' k" :=
  (bind m (fun _ => k))
  (at level 100, k at level 200, right associativity)
  : method_scope.

Local Open Scope method_scope.

(** The final state and the outcome of a run. *)
Definition exec {S A} (m : M S A) (s : S) : S := snd (m s).
Definition eval {S A} (m : M S A) (s : S) : outcome A := fst (m s).

(** ** IEEE-754 interchange formats *)

Module IEEE.

(** A format is given by the widths of its fraction and exponent
    fields: (23, 8) for binary32 and (52, 11) for binary64. *)
Section Format.
Variables mw ew : Z.

Definition fprec : Z := mw + 1.
Definition femax : Z := 2 ^ (ew - 1).
Definition femin : Z := 3 - femax - fprec.

(** Rounding to the format, to nearest with ties to even. *)
Definition round (f : spec_float) : spec_float :=
  match f with
  | S754_finite s m e => binary_normalize fprec femax (cond_Zopp s (Z.pos m)) e s
  | _ => f
  end.

(** The bit pattern of a value of the format; NaN is the quiet NaN
    with an empty payload. *)
Definition to_bits (f : spec_float) : Z :=
  let sign (s : bool) := if s then 2 ^ (mw + ew) else 0 in
  match f with
  | S754_zero s => sign s
  | S754_infinity s => sign s + (2 ^ ew - 1) * 2 ^ mw
  | S754_nan => (2 ^ ew - 1) * 2 ^ mw + 2 ^ (mw - 1)
  | S754_finite s m e =>
      if Z.pos m <? 2 ^ mw then sign s + Z.pos m
      else sign s + (e - femin + 1) * 2 ^ mw + (Z.pos m - 2 ^ mw)
  end.

Definition of_bits (bits : Z) : spec_float :=
  let s := 2 ^ (mw + ew) <=? bits in
  let ex := (bits / 2 ^ mw) mod 2 ^ ew in
  let frac := bits mod 2 ^ mw in
  if ex =? 0 then
    match frac with
    | Z.pos m => S754_finite s m femin
    | _ => S754_zero s
    end
  else if ex =? 2 ^ ew - 1 then
    if frac =? 0 then S754_infinity s else S754_nan
  else
    match frac + 2 ^ mw with
    | Z.pos m => S754_finite s m (ex - 1 + femin)
    | _ => S754_nan
    end.
End Format.

Definition float32_bits (x : number) : Z := to_bits 23 8 (round 23 8 (Number.to_float x)).
Definition float64_bits (x : number) : Z := to_bits 52 11 (round 52 11 (Number.to_float x)).

(** Decoded values are brought back to binary64, which holds every
    binary32 value exactly. *)
Definition float32_value (bits : Z) : number :=
  Number.of_float (round 52 11 (of_bits 23 8 bits)).
Definition float64_value (bits : Z) : number :=
  Number.of_float (round 52 11 (of_bits 52 11 bits)).

End IEEE.

(** ** The parts of Node's [Buffer] the class relies on *)

Module Buffer.

Abbreviation t := (list byte).

Definition length (b : t) : Z := Z.of_nat (List.length b).

(** [Buffer.alloc(size)]: zero-filled; a negative, infinite or NaN
    size is a RangeError, a fractional size is truncated. *)
Definition alloc (size : number) : outcome t :=
  if Number.leb (Int 0) size then
    match Number.trunc size with
    | Some n => Ret (replicate (Z.to_nat n) Byte.x00)
    | None => Throw RangeError
    end
  else Throw RangeError.

(** [source.copy(target)]: the bytes of [source] overwrite the start of
    [target], as many as fit. *)
Definition copy (source target : t) : t :=
  take (List.length target) source ++ drop (List.length source) target.

Definition concat (a b : t) : t := a ++ b.

(** [buf.slice(0, stop)]; the class calls it with an integral [stop]
    strictly between 0 and the length only. *)
Definition slice0 (buf : t) (stop : number) : t :=
  match Number.to_int stop with
  | Some n => take (Z.to_nat n) buf
  | None => buf
  end.

(** [buf[i]]: [undefined] (here [None]) unless [i] is a valid index. *)
Definition get (buf : t) (i : number) : option byte :=
  match Number.to_int i with
  | Some z => if 0 <=? z then buf !! Z.to_nat z else None
  | None => None
  end.

(** [buf[i] = v]: ignored unless [i] is a valid index; [undefined]
    is stored as 0. *)
Definition set (buf : t) (i : number) (v : option byte) : t :=
  match Number.to_int i with
  | Some z => if 0 <=? z then <[Z.to_nat z := default Byte.x00 v]> buf else buf
  | None => buf
  end.

(** The bounds check shared by the accessors: [offset] must be an
    integer with [0 <= offset] and [offset + k <= length]. *)
Definition check_bounds (buf : t) (offset : number) (k : Z) : outcome Z :=
  match Number.to_int offset with
  | Some o => if (0 <=? o) && (o + k <=? length buf) then Ret o
              else Throw RangeError
  | None => Throw RangeError
  end.

Definition window (buf : t) (o k : Z) : t :=
  take (Z.to_nat k) (drop (Z.to_nat o) buf).

Definition splice (buf : t) (o : Z) (bytes : t) : t :=
  take (Z.to_nat o) buf ++ bytes
    ++ drop (Z.to_nat o + List.length bytes) buf.

(** Unsigned integers as byte strings, in either order. *)
Definition be_decode (l : t) : Z :=
  fold_left (fun acc b => acc * 256 + Z_of_byte b) l 0.

Definition le_decode (l : t) : Z := be_decode (rev l).

Fixpoint le_encode (k : nat) (z : Z) : t :=
  match k with
  | O => []
  | S k' => byte_of_Z z :: le_encode k' (z / 256)
  end.

Definition be_encode (k : nat) (z : Z) : t := rev (le_encode k z).

Definition decode (big : bool) (l : t) : Z :=
  if big then be_decode l else le_decode l.

Definition encode (big : bool) (k : nat) (z : Z) : t :=
  if big then be_encode k z else le_encode k z.

(** The two's complement reading of a [k]-byte unsigned value. *)
Definition signed (k : Z) (z : Z) : Z :=
  if z <? 2 ^ (8 * k - 1) then z else z - 2 ^ (8 * k).

(** *** Integer accessors *)

Definition readUInt (big : bool) (k : Z) (buf : t) (offset : number) : outcome Z :=
  match check_bounds buf offset k with
  | Ret o => Ret (decode big (window buf o k))
  | Throw e => Throw e
  end.

Definition readInt (big : bool) (k : Z) (buf : t) (offset : number) : outcome Z :=
  match readUInt big k buf offset with
  | Ret z => Ret (signed k z)
  | Throw e => Throw e
  end.

Definition as_number (o : outcome Z) : outcome number :=
  match o with
  | Ret z => Ret (Int z)
  | Throw e => Throw e
  end.

Definition readInt8 buf offset := as_number (readInt true 1 buf offset).
Definition readUInt8 buf offset := as_number (readUInt true 1 buf offset).
Definition readInt16BE buf offset := as_number (readInt true 2 buf offset).
Definition readInt16LE buf offset := as_number (readInt false 2 buf offset).
Definition readUInt16BE buf offset := as_number (readUInt true 2 buf offset).
Definition readUInt16LE buf offset := as_number (readUInt false 2 buf offset).
Definition readInt32BE buf offset := as_number (readInt true 4 buf offset).
Definition readInt32LE buf offset := as_number (readInt false 4 buf offset).
Definition readUInt32BE buf offset := as_number (readUInt true 4 buf offset).
Definition readUInt32LE buf offset := as_number (readUInt false 4 buf offset).

(** The 64-bit readers return a BigInt, here a [Z]. *)
Definition readBigInt64BE buf offset := readInt true 8 buf offset.
Definition readBigInt64LE buf offset := readInt false 8 buf offset.
Definition readBigUInt64BE buf offset := readUInt true 8 buf offset.
Definition readBigUInt64LE buf offset := readUInt false 8 buf offset.

(** A writer stores a payload of [k] bytes at an offset that passes
    the bounds check; a value it rejects has no payload. *)
Definition store (payload : option t) (k : Z) (buf : t) (offset : number) : outcome t :=
  match payload with
  | None => Throw RangeError
  | Some bytes =>
      match check_bounds buf offset k with
      | Ret o => Ret (splice buf o bytes)
      | Throw e => Throw e
      end
  end.

(** The integer writers reject a value outside [min, max] with a
    RangeError and store the low [k] bytes of the truncated value. *)
Definition int_payload (big : bool) (k : nat) (min max : Z) (value : number) : option t :=
  if Number.ltb (Int max) value || Number.ltb value (Int min) then None
  else Some (encode big k (Number.ToUint32 value)).

Definition writeInt (big : bool) (k : nat) (min max : Z)
    (buf : t) (value offset : number) : outcome t :=
  store (int_payload big k min max value) (Z.of_nat k) buf offset.

Definition writeInt8 := writeInt true 1 (- 2 ^ 7) (2 ^ 7 - 1).
Definition writeUInt8 := writeInt true 1 0 (2 ^ 8 - 1).
Definition writeInt16BE := writeInt true 2 (- 2 ^ 15) (2 ^ 15 - 1).
Definition writeInt16LE := writeInt false 2 (- 2 ^ 15) (2 ^ 15 - 1).
Definition writeUInt16BE := writeInt true 2 0 (2 ^ 16 - 1).
Definition writeUInt16LE := writeInt false 2 0 (2 ^ 16 - 1).
Definition writeUInt32BE := writeInt true 4 0 (2 ^ 32 - 1).
Definition writeUInt32LE := writeInt false 4 0 (2 ^ 32 - 1).

Definition bigint_payload (big : bool) (min max : Z) (value : Z) : option t :=
  if (max <? value) || (value <? min) then None
  else Some (encode big 8 (value mod 2 ^ 64)).

Definition writeBigInt (big : bool) (min max : Z)
    (buf : t) (value : Z) (offset : number) : outcome t :=
  store (bigint_payload big min max value) 8 buf offset.

Definition writeBigInt64BE := writeBigInt true (- 2 ^ 63) (2 ^ 63 - 1).
Definition writeBigInt64LE := writeBigInt false (- 2 ^ 63) (2 ^ 63 - 1).
Definition writeBigUInt64BE := writeBigInt true 0 (2 ^ 64 - 1).
Definition writeBigUInt64LE := writeBigInt false 0 (2 ^ 64 - 1).

(** *** Floating-point accessors *)

Definition readFloat (big : bool) (buf : t) (offset : number) : outcome number :=
  match readUInt big 4 buf offset with
  | Ret bits => Ret (IEEE.float32_value bits)
  | Throw e => Throw e
  end.

Definition readDouble (big : bool) (buf : t) (offset : number) : outcome number :=
  match readUInt big 8 buf offset with
  | Ret bits => Ret (IEEE.float64_value bits)
  | Throw e => Throw e
  end.

Definition readFloatBE := readFloat true.
Definition readFloatLE := readFloat false.
Definition readDoubleBE := readDouble true.
Definition readDoubleLE := readDouble false.

(** The floating-point writers check the offset only: any number is
    rounded to the format and stored. *)
Definition float_payload (big : bool) (value : number) : option t :=
  Some (encode big 4 (IEEE.float32_bits value)).

Definition double_payload (big : bool) (value : number) : option t :=
  Some (encode big 8 (IEEE.float64_bits value)).

Definition writeFloat (big : bool) (buf : t) (value offset : number) : outcome t :=
  store (float_payload big value) 4 buf offset.

Definition writeDouble (big : bool) (buf : t) (value offset : number) : outcome t :=
  store (double_payload big value) 8 buf offset.

Definition writeFloatBE := writeFloat true.
Definition writeFloatLE := writeFloat false.
Definition writeDoubleBE := writeDouble true.
Definition writeDoubleLE := writeDouble false.

(** *** Strings *)

(** A JavaScript string is a sequence of UTF-16 code units. *)
Abbreviation jsstring := (list Z).

Definition high_surrogate (c : Z) : bool := (0xD800 <=? c) && (c <=? 0xDBFF).
Definition low_surrogate (c : Z) : bool := (0xDC00 <=? c) && (c <=? 0xDFFF).

(** [Buffer.byteLength(str)]: the length of the UTF-8 encoding, a
    surrogate pair taking four bytes and a lone surrogate three. *)
Fixpoint byteLength (str : jsstring) : Z :=
  match str with
  | [] => 0
  | c :: rest =>
      if c <? 0x80 then 1 + byteLength rest
      else if c <? 0x800 then 2 + byteLength rest
      else
        match rest with
        | d :: rest' =>
            if high_surrogate c && low_surrogate d then 4 + byteLength rest'
            else 3 + byteLength rest
        | [] => 3
        end
  end.

(** *** Slices *)

(** The offset adjustment of [slice]: the offset is truncated, a
    negative one counts from the end, and the result is clamped to the
    buffer; NaN counts as 0. *)
Definition adjustOffset (offset : number) (length : Z) : Z :=
  match Number.trunc offset with
  | Some z =>
      if z =? 0 then 0
      else if z <? 0 then Z.max 0 (z + length)
      else Z.min z length
  | None =>
      match offset with
      | Flt (S754_infinity false) => length
      | _ => 0
      end
  end.

(** [buf.slice(start, stop)]. *)
Definition slice (buf : t) (start stop : number) : t :=
  let s := adjustOffset start (length buf) in
  let e := adjustOffset stop (length buf) in
  window buf s (if s <? e then e - s else 0).

End Buffer.

(** ** The class *)

Inductive Endian : Type :=
| LITTLE_ENDIAN
| BIG_ENDIAN.

Inductive ObjectEncoding : Type :=
| AMF0
| AMF3.

Record ByteArray : Type := mkByteArray {
  position : number;
  endian : Endian;
  objectEncoding : ObjectEncoding;
  buffer : Buffer.t
}.

Definition with_position (p : number) (b : ByteArray) : ByteArray :=
  mkByteArray p (endian b) (objectEncoding b) (buffer b).

Definition with_endian (e : Endian) (b : ByteArray) : ByteArray :=
  mkByteArray (position b) e (objectEncoding b) (buffer b).

Definition with_buffer (buf : Buffer.t) (b : ByteArray) : ByteArray :=
  mkByteArray (position b) (endian b) (objectEncoding b) buf.

(** What the constructor accepts: an array of numbers or a number.
    (A [Buffer] argument is adopted by reference; that sharing between
    instances is not part of the embedding.) *)
Inductive source : Type :=
| OfArray (l : list number)
| OfNumber (n : number).

Definition convert (v : source) : outcome Buffer.t :=
  match v with
  | OfArray l => Ret (map (fun x => byte_of_Z (Number.ToUint32 x)) l)
  | OfNumber n =>
      if Number.isInteger n then Buffer.alloc n
      else Buffer.alloc (Int 0)
  end.

Definition new_ByteArray (v : source) : outcome ByteArray :=
  match convert v with
  | Ret buf => Ret (mkByteArray (Int 0) BIG_ENDIAN AMF3 buf)
  | Throw e => Throw e
  end.

(** The instance made by [new ByteArray(0)]. *)
Definition empty : ByteArray := mkByteArray (Int 0) BIG_ENDIAN AMF3 [].

Definition method (A : Type) : Type := M ByteArray A.

Definition getPosition : method number := gets position.

Definition setPosition (value : number) : method unit :=
  if Number.leb (Int 0) value then modify (with_position value)
  else throw TypeError.

Definition getEndian : method Endian := gets endian.

Definition setEndian (value : string) : method unit :=
  if String.eqb value "LE" then modify (with_endian LITTLE_ENDIAN)
  else if String.eqb value "BE" then modify (with_endian BIG_ENDIAN)
  else throw TypeError.

Definition getLength : method number :=
  gets (fun b => Int (Buffer.length (buffer b))).

Definition clear : method unit :=
  modify (fun b => with_position (Int 0) (with_buffer [] b)).

Definition getBytesAvailable : method number :=
  let! l := getLength in
  let! p := getPosition in
  ret (Number.sub l p).

Definition expand (value : number) : method unit :=
  let! avail := getBytesAvailable in
  if Number.ltb avail value then
    let! old := gets buffer in
    let size := Number.add (Int (Buffer.length old)) (Number.sub value avail) in
    let! fresh := lift (Buffer.alloc size) in
    modify (with_buffer (Buffer.copy old fresh))
  else ret tt.

Definition setLength (value : number) : method unit :=
  if negb (Number.isInteger value) || Number.ltb value (Int 0) then throw TypeError
  else if Number.eqb value (Int 0) then clear
  else
    let! len := getLength in
    if negb (Number.eqb value len) then
      if Number.ltb value len then
        modify (fun b => with_buffer (Buffer.slice0 (buffer b) value) b) >>
        let! len' := getLength in
        modify (with_position len')
      else expand value
    else ret tt.

Definition signedOverflow (value bits : number) : number :=
  let sign := Number.shl (Int 1) (Number.sub bits (Int 1)) in
  Number.sub (Number.band value (Number.sub sign (Int 1))) (Number.band value sign).

(** [this.position++] and [this.position += k]. *)
Definition post_increment : method number :=
  fun b => (Ret (position b), with_position (Number.add (position b) (Int 1)) b).

Definition advance (k : number) : method unit :=
  modify (fun b => with_position (Number.add (position b) k) b).

(** A call of one of two accessors of [this.buffer], picked by the
    byte order, at [this.position]. *)
Definition by_endian {A} (be le : Buffer.t -> number -> outcome A) : method A :=
  let! e := getEndian in
  let! buf := gets buffer in
  let! p := getPosition in
  match e with
  | BIG_ENDIAN => lift (be buf p)
  | LITTLE_ENDIAN => lift (le buf p)
  end.

Definition store_by_endian (be le : Buffer.t -> number -> number -> outcome Buffer.t)
    (value : number) : method unit :=
  let! buf' := by_endian (fun buf p => be buf value p) (fun buf p => le buf value p) in
  modify (with_buffer buf').

(** [Number(bigint)] and [BigInt(number)]. *)
Definition Number_of_BigInt (z : Z) : number := Number.of_float (Number.Z_to_SF z).

Definition BigInt (x : number) : outcome Z :=
  match Number.to_int x with
  | Some z => Ret z
  | None => Throw RangeError
  end.

(** *** Reads *)

Definition readByte : method number :=
  let! buf := gets buffer in
  let! p := post_increment in
  lift (Buffer.readInt8 buf p).

Definition readBoolean : method bool :=
  let! v := readByte in
  ret (negb (Number.eqb v (Int 0))).

Definition readDouble : method number :=
  let! value := by_endian Buffer.readDoubleBE Buffer.readDoubleLE in
  advance (Int 8) >> ret value.

Definition readFloat : method number :=
  let! value := by_endian Buffer.readFloatBE Buffer.readFloatLE in
  advance (Int 4) >> ret value.

Definition readInt : method number :=
  let! value := by_endian Buffer.readInt32BE Buffer.readInt32LE in
  advance (Int 4) >> ret value.

Definition readLong : method number :=
  let! value := by_endian Buffer.readBigInt64BE Buffer.readBigInt64LE in
  advance (Int 4) >> ret (Number_of_BigInt value).

Definition readShort : method number :=
  let! value := by_endian Buffer.readInt16BE Buffer.readInt16LE in
  advance (Int 2) >> ret value.

Definition readUnsignedByte : method number :=
  let! buf := gets buffer in
  let! p := post_increment in
  lift (Buffer.readUInt8 buf p).

Definition readUnsignedInt : method number :=
  let! value := by_endian Buffer.readUInt32BE Buffer.readUInt32LE in
  advance (Int 4) >> ret value.

Definition readUnsignedShort : method number :=
  let! value := by_endian Buffer.readUInt16BE Buffer.readUInt16LE in
  advance (Int 2) >> ret value.

Definition readUnsignedLong : method number :=
  let! value := by_endian Buffer.readBigUInt64BE Buffer.readBigUInt64LE in
  advance (Int 8) >> ret (Number_of_BigInt value).

(** *** Writes *)

Definition writeByte (value : number) : method unit :=
  expand (Int 1) >>
  let! buf := gets buffer in
  let v := signedOverflow value (Int 8) in
  let! p := post_increment in
  let! buf' := lift (Buffer.writeInt8 buf v p) in
  modify (with_buffer buf').

Definition writeBoolean (value : bool) : method unit :=
  writeByte (if value then Int 1 else Int 0).

Definition writeDouble (value : number) : method unit :=
  expand (Int 8) >>
  store_by_endian Buffer.writeDoubleBE Buffer.writeDoubleLE value >>
  advance (Int 8).

Definition writeFloat (value : number) : method unit :=
  expand (Int 4) >>
  store_by_endian Buffer.writeFloatBE Buffer.writeFloatLE value >>
  advance (Int 4).

Definition writeInt (value : number) : method unit :=
  expand (Int 4) >>
  store_by_endian Buffer.writeFloatBE Buffer.writeFloatLE (signedOverflow value (Int 32)) >>
  advance (Int 4).

Definition writeLong (value : number) : method unit :=
  expand (Int 8) >>
  let! e := getEndian in
  let! buf := gets buffer in
  let! big := lift (BigInt value) in
  let! p := getPosition in
  let! buf' := lift (match e with
                     | BIG_ENDIAN => Buffer.writeBigInt64BE buf big p
                     | LITTLE_ENDIAN => Buffer.writeBigInt64LE buf big p
                     end) in
  modify (with_buffer buf') >>
  advance (Int 8).

Definition writeShort (value : number) : method unit :=
  expand (Int 2) >>
  store_by_endian Buffer.writeInt16BE Buffer.writeInt16LE (signedOverflow value (Int 16)) >>
  advance (Int 2).

Definition writeUnsignedByte (value : number) : method unit :=
  expand (Int 1) >>
  let! buf := gets buffer in
  let! p := post_increment in
  let! buf' := lift (Buffer.writeUInt8 buf value p) in
  modify (with_buffer buf').

Definition writeUnsignedInt (value : number) : method unit :=
  expand (Int 4) >>
  store_by_endian Buffer.writeUInt32BE Buffer.writeUInt32LE value >>
  advance (Int 4).

Definition writeUnsignedShort (value : number) : method unit :=
  expand (Int 2) >>
  store_by_endian Buffer.writeUInt16BE Buffer.writeUInt16LE value >>
  advance (Int 2).

Definition writeUnsignedLong (value : number) : method unit :=
  expand (Int 8) >>
  let! e := getEndian in
  let! buf := gets buffer in
  let! big := lift (BigInt value) in
  let! p := getPosition in
  let! buf' := lift (match e with
                     | BIG_ENDIAN => Buffer.writeBigUInt64BE buf big p
                     | LITTLE_ENDIAN => Buffer.writeBigUInt64LE buf big p
                     end) in
  modify (with_buffer buf') >>
  advance (Int 8).

(** *** Strings

    The charset collaborator (iconv-lite) is a parameter: which charset
    names exist and how a string is encoded in one of them. *)

Section Charset.

Variable encodingExists : string -> bool.
Variable encode : Buffer.jsstring -> string -> Buffer.t.

Definition writeMultiByte (value : Buffer.jsstring) (charset : string) : method unit :=
  advance (Int (Buffer.byteLength value)) >>
  if encodingExists charset then
    modify (fun b => with_buffer (Buffer.concat (buffer b) (encode value charset)) b)
  else throw Error.

Definition writeUTF (value : Buffer.jsstring) : method unit :=
  writeUnsignedShort (Int (Buffer.byteLength value)) >>
  writeMultiByte value "utf8".

Definition writeUTFBytes (value : Buffer.jsstring) : method unit :=
  writeMultiByte value "utf8".

End Charset.

(** *** Bulk transfers between two instances

    The instances live in a heap; [this] and [bytes] are references and
    may be equal.  [offset] and [length] are integers. *)

Abbreviation ref := positive.

Abbreviation heap := (gmap ref ByteArray).

(** A method call on the object at [r]. *)
Definition on {A} (r : ref) (m : method A) : M heap A :=
  fun h =>
    match h !! r with
    | Some b => let (o, b') := m b in (o, <[r := b']> h)
    | None => (Throw TypeError, h)
    end.

(** [for (let i = i0; i < i0 + n; i++) body(i)]. *)
Fixpoint for_loop {S} (n : nat) (i : Z) (body : Z -> M S unit) : M S unit :=
  match n with
  | O => ret tt
  | S n' => body i >> for_loop n' (i + 1) body
  end.

(** The number of integers [i >= 0] with [i < n].  (For [n = +Infinity]
    the loop would not end; the lengths below are [+Infinity] only when a
    position is [-Infinity], which no method produces.) *)
Definition trip_count (n : number) : nat :=
  match n with
  | Int z => Z.to_nat z
  | Flt f =>
      match Number.SF_ceil f with
      | Some z => Z.to_nat z
      | None => O
      end
  end.

(** The body of the copy loop of [readBytes]:
    [bytes.buffer[i + offset] = this.buffer[i + this.position]]. *)
Definition read_step (this bytes : ref) (offset : Z) (i : Z) : M heap unit :=
  let! v := on this (fun b =>
              (Ret (Buffer.get (buffer b) (Number.add (Int i) (position b))), b)) in
  on bytes (modify (fun b =>
    with_buffer (Buffer.set (buffer b) (Int (i + offset)) v) b)).

Definition readBytes (this bytes : ref) (offset length : Z) : M heap unit :=
  let! length := (if length =? 0 then on this getBytesAvailable else ret (Int length)) in
  let! avail := on this getBytesAvailable in
  if Number.ltb avail length then throw RangeError
  else
    let! blen := on bytes getLength in
    (if Number.ltb blen (Number.add (Int offset) length)
     then on bytes (expand (Number.add (Int offset) length))
     else ret tt) >>
    for_loop (trip_count length) 0 (read_step this bytes offset) >>
    on this (advance length).

(** The body of the copy loop of [writeBytes]:
    [this.buffer[i + this.position] = bytes.buffer[i + offset]]. *)
Definition write_step (this bytes : ref) (offset : Z) (i : Z) : M heap unit :=
  let! v := on bytes (gets (fun b => Buffer.get (buffer b) (Int (i + offset)))) in
  on this (modify (fun b =>
    with_buffer (Buffer.set (buffer b) (Number.add (Int i) (position b)) v) b)).

Definition writeBytes (this bytes : ref) (offset length : Z) : M heap unit :=
  let! length := (if length =? 0
                  then let! blen := on bytes getLength in ret (Number.sub blen (Int offset))
                  else ret (Int length)) in
  on this (expand length) >>
  for_loop (trip_count length) 0 (write_step this bytes offset) >>
  on this (advance length).

(** *** The object encoding *)

Definition with_objectEncoding (o : ObjectEncoding) (b : ByteArray) : ByteArray :=
  mkByteArray (position b) (endian b) o (buffer b).

Definition getObjectEncoding : method number :=
  gets (fun b => match objectEncoding b with AMF0 => Int 0 | AMF3 => Int 3 end).

Definition setObjectEncoding (encoding : number) : method unit :=
  if Number.eqb encoding (Int 0) then modify (with_objectEncoding AMF0)
  else if Number.eqb encoding (Int 3) then modify (with_objectEncoding AMF3)
  else throw Error.

(** *** Reading strings

    The decoder of the charset collaborator takes the bytes, the charset
    and the [stripBOM] option, which is absent ([None]) when the caller
    passes no options. *)

Definition has_BOM (b : Buffer.t) : bool :=
  match b with
  | b0 :: b1 :: b2 :: _ =>
      Byte.eqb b0 Byte.xef && Byte.eqb b1 Byte.xbb && Byte.eqb b2 Byte.xbf
  | _ => false
  end.

Section CharsetDecoding.

Variable encodingExists : string -> bool.
Variable decode : Buffer.t -> string -> option bool -> Buffer.jsstring.

Definition readMultiByte (length : number) (charset : string) : method Buffer.jsstring :=
  let! position := getPosition in
  advance length >>
  if encodingExists charset then
    let! stop := getPosition in
    let! buf := gets buffer in
    let b := Buffer.slice buf position stop in
    let stripBOM := (String.eqb charset "utf8" || String.eqb charset "utf-8") && has_BOM b in
    let value := decode b charset (Some stripBOM) in
    let length := if stripBOM then Number.sub length (Int 3) else length in
    if negb (Number.eqb (Int (Buffer.byteLength value)) length) then throw RangeError
    else ret value
  else throw Error.

Definition readUTF : method Buffer.jsstring :=
  let! n := readUnsignedShort in
  readMultiByte n "utf8".

Definition readUTFBytes (length : number) : method Buffer.jsstring :=
  readMultiByte length "utf8".

Definition toString (charset : string) : method Buffer.jsstring :=
  if encodingExists charset then
    let! buf := gets buffer in
    ret (decode buf charset None)
  else throw Error.

End CharsetDecoding.

(** *** Objects

    The two object serializers are parameters: [stringify] gives the
    bytes of a value as an array of numbers, [parse] reads a value at an
    offset and reports how many bytes it took, or throws. *)

Section Objects.

Variable value : Type.
Variable AMF0_stringify AMF3_stringify : value -> list number.
Variable AMF0_parse AMF3_parse : Buffer.t -> number -> outcome (number * value).

Definition readObject : method value :=
  let! o := gets objectEncoding in
  let! buf := gets buffer in
  let! p := getPosition in
  let! r := lift (match o with
                  | AMF0 => AMF0_parse buf p
                  | AMF3 => AMF3_parse buf p
                  end) in
  advance (fst r) >> ret (snd r).

Definition writeObject (v : value) : method unit :=
  let! o := gets objectEncoding in
  let bytes := match o with
               | AMF0 => AMF0_stringify v
               | AMF3 => AMF3_stringify v
               end in
  advance (Int (Z.of_nat (List.length bytes))) >>
  modify (fun b =>
    with_buffer (Buffer.concat (buffer b)
                   (map (fun x => byte_of_Z (Number.ToUint32 x)) bytes)) b).

End Objects.

(** ** The fixed-width primitives, by name *)

Inductive reader : Type :=
| RByte | RDouble | RFloat | RInt | RLong | RShort
| RUnsignedByte | RUnsignedInt | RUnsignedShort | RUnsignedLong.

Inductive writer : Type :=
| WByte | WDouble | WFloat | WInt | WLong | WShort
| WUnsignedByte | WUnsignedInt | WUnsignedShort | WUnsignedLong.

(** The number of bytes a primitive occupies. *)
Definition read_width (r : reader) : Z :=
  match r with
  | RByte | RUnsignedByte => 1
  | RShort | RUnsignedShort => 2
  | RInt | RUnsignedInt | RFloat => 4
  | RLong | RUnsignedLong | RDouble => 8
  end.

Definition width (w : writer) : Z :=
  match w with
  | WByte | WUnsignedByte => 1
  | WShort | WUnsignedShort => 2
  | WInt | WUnsignedInt | WFloat => 4
  | WLong | WUnsignedLong | WDouble => 8
  end.

Definition read (r : reader) : method number :=
  match r with
  | RByte => readByte
  | RDouble => readDouble
  | RFloat => readFloat
  | RInt => readInt
  | RLong => readLong
  | RShort => readShort
  | RUnsignedByte => readUnsignedByte
  | RUnsignedInt => readUnsignedInt
  | RUnsignedShort => readUnsignedShort
  | RUnsignedLong => readUnsignedLong
  end.

Definition write (w : writer) : number -> method unit :=
  match w with
  | WByte => writeByte
  | WDouble => writeDouble
  | WFloat => writeFloat
  | WInt => writeInt
  | WLong => writeLong
  | WShort => writeShort
  | WUnsignedByte => writeUnsignedByte
  | WUnsignedInt => writeUnsignedInt
  | WUnsignedShort => writeUnsignedShort
  | WUnsignedLong => writeUnsignedLong
  end.

Definition is_big (e : Endian) : bool :=
  match e with
  | BIG_ENDIAN => true
  | LITTLE_ENDIAN => false
  end.

Definition bigint_bytes (big : bool) (min max : Z) (value : number) : option Buffer.t :=
  match Number.to_int value with
  | Some z => Buffer.bigint_payload big min max z
  | None => None
  end.

(** The bytes a write puts into storage, when it accepts the value. *)
Definition payload (w : writer) (e : Endian) (value : number) : option Buffer.t :=
  let big := is_big e in
  match w with
  | WByte => Buffer.int_payload true 1 (- 2 ^ 7) (2 ^ 7 - 1) (signedOverflow value (Int 8))
  | WDouble => Buffer.double_payload big value
  | WFloat => Buffer.float_payload big value
  | WInt => Buffer.float_payload big (signedOverflow value (Int 32))
  | WLong => bigint_bytes big (- 2 ^ 63) (2 ^ 63 - 1) value
  | WShort => Buffer.int_payload big 2 (- 2 ^ 15) (2 ^ 15 - 1) (signedOverflow value (Int 16))
  | WUnsignedByte => Buffer.int_payload true 1 0 (2 ^ 8 - 1) value
  | WUnsignedInt => Buffer.int_payload big 4 0 (2 ^ 32 - 1) value
  | WUnsignedShort => Buffer.int_payload big 2 0 (2 ^ 16 - 1) value
  | WUnsignedLong => bigint_bytes big 0 (2 ^ 64 - 1) value
  end.

(** The state after a write that grew the storage up to the cursor and
    placed [bytes] there. *)
Definition written (b : ByteArray) (p : Z) (bytes : Buffer.t) : ByteArray :=
  mkByteArray (Int (p + Buffer.length bytes)) (endian b) (objectEncoding b)
    (buffer b ++ replicate (Z.to_nat (p - Buffer.length (buffer b))) Byte.x00 ++ bytes).

(** [writeInt(v)] into an empty instance, then [readInt] from 0. *)
Definition round_trip_Int (order : string) (v : Z) : outcome number :=
  eval (setEndian order >> writeInt (Int v) >> setPosition (Int 0) >> readInt) empty.

(** The destination storage after the copy loop of [readBytes] has run
    [n] more rounds from index [i], read off the loop body. *)
Fixpoint copied (from : Buffer.t) (pos : number) (offset : Z)
    (n : nat) (i : Z) (to : Buffer.t) : Buffer.t :=
  match n with
  | O => to
  | S n' =>
      copied from pos offset n' (i + 1)
        (Buffer.set to (Int (i + offset)) (Buffer.get from (Number.add (Int i) pos)))
  end.

(** An instance of the charset collaborator that knows UTF-16LE only. *)
Definition utf16le_exists (charset : string) : bool := String.eqb charset "utf16le".

Definition utf16le_encode (str : Buffer.jsstring) (charset : string) : Buffer.t :=
  flat_map (Buffer.le_encode 2) str.

(** A heap with a three-byte source read up to 1 and a one-byte
    destination. *)
Definition source_instance : ByteArray :=
  mkByteArray (Int 1) BIG_ENDIAN AMF3 [Byte.x01; Byte.x02; Byte.x03].

Definition destination_instance : ByteArray :=
  mkByteArray (Int 1) LITTLE_ENDIAN AMF0 [Byte.x09].

Definition two_instances : heap :=
  <[1%positive := source_instance]> (<[2%positive := destination_instance]> ∅).

(** ** Vocabulary of the further properties *)

(** The read that matches a write. *)
Definition reader_of (w : writer) : reader :=
  match w with
  | WByte => RByte
  | WDouble => RDouble
  | WFloat => RFloat
  | WInt => RInt
  | WLong => RLong
  | WShort => RShort
  | WUnsignedByte => RUnsignedByte
  | WUnsignedInt => RUnsignedInt
  | WUnsignedShort => RUnsignedShort
  | WUnsignedLong => RUnsignedLong
  end.

(** How far a successful read moves the cursor. *)
Definition read_advance (r : reader) : Z :=
  match r with
  | RLong => 4
  | _ => read_width r
  end.

(** The value a read makes of the bytes it finds. *)
Definition decoded (r : reader) (e : Endian) (bytes : Buffer.t) : number :=
  let big := is_big e in
  match r with
  | RByte => Int (Buffer.signed 1 (Buffer.decode true bytes))
  | RUnsignedByte => Int (Buffer.decode true bytes)
  | RShort => Int (Buffer.signed 2 (Buffer.decode big bytes))
  | RUnsignedShort => Int (Buffer.decode big bytes)
  | RInt => Int (Buffer.signed 4 (Buffer.decode big bytes))
  | RUnsignedInt => Int (Buffer.decode big bytes)
  | RLong => Number_of_BigInt (Buffer.signed 8 (Buffer.decode big bytes))
  | RUnsignedLong => Number_of_BigInt (Buffer.decode big bytes)
  | RFloat => IEEE.float32_value (Buffer.decode big bytes)
  | RDouble => IEEE.float64_value (Buffer.decode big bytes)
  end.

(** Storage extended with zeros, if need be, to hold [k] bytes at [p]. *)
Definition grown (buf : Buffer.t) (p k : Z) : Buffer.t :=
  buf ++ replicate (Z.to_nat (p + k - Buffer.length buf)) Byte.x00.

(** The state after a write of [bytes] at the cursor [p]. *)
Definition written_at (b : ByteArray) (p : Z) (bytes : Buffer.t) : ByteArray :=
  mkByteArray (Int (p + Buffer.length bytes)) (endian b) (objectEncoding b)
    (Buffer.splice (grown (buffer b) p (Buffer.length bytes)) p bytes).

(** The cursor is at the end of storage. *)
Definition at_end (b : ByteArray) : Prop :=
  position b = Int (Buffer.length (buffer b)).

(** A sequence of fixed-width writes, stopped by the first that throws. *)
Fixpoint write_all (ws : list (writer * number)) : method unit :=
  match ws with
  | [] => ret tt
  | (w, v) :: rest => write w v >> write_all rest
  end.

Definition total_width (ws : list (writer * number)) : Z :=
  fold_right (fun wv acc => width (fst wv) + acc) 0 ws.

(** The two's complement wrap of an integer to [n] bits. *)
Definition wrap (n : Z) (z : Z) : Z :=
  (z + 2 ^ (n - 1)) mod 2 ^ n - 2 ^ (n - 1).

(** An instance of the charset collaborator for strings of ASCII
    characters, which UTF-8 encodes as one byte each. *)
Definition ascii_exists (charset : string) : bool := String.eqb charset "utf8".

Definition ascii_encode (str : Buffer.jsstring) (charset : string) : Buffer.t :=
  map byte_of_Z str.

Definition ascii_decode (b : Buffer.t) (charset : string) (stripBOM : option bool)
    : Buffer.jsstring :=
  map Z_of_byte b.

(** How far a write that rejects its value has moved the cursor: the
    byte writers increment it while passing it to the accessor. *)
Definition rejected_advance (w : writer) : Z :=
  match w with
  | WByte | WUnsignedByte => 1
  | _ => 0
  end.

(** How far a read that does not find its bytes has moved the cursor. *)
Definition failed_read_advance (r : reader) : Z :=
  match r with
  | RByte | RUnsignedByte => 1
  | _ => 0
  end.

(** Storage after the copy loop of [readBytes] has run [n] more rounds
    from index [i] when the destination is the source itself: each round
    reads the storage the rounds before have left. *)
Fixpoint shifted (pos : number) (offset : Z) (n : nat) (i : Z) (buf : Buffer.t) : Buffer.t :=
  match n with
  | O => buf
  | S n' =>
      shifted pos offset n' (i + 1)
        (Buffer.set buf (Int (i + offset)) (Buffer.get buf (Number.add (Int i) pos)))
  end.

(** An instance of the object serializer for values that are one byte:
    the byte itself is its serialized form. *)
Definition octet_stringify (v : Z) : list number := [Int v].

Definition octet_parse (buf : Buffer.t) (p : number) : outcome (number * Z) :=
  match Number.to_int p with
  | Some z =>
      match buf !! Z.to_nat z with
      | Some x => Ret (Int 1, Z_of_byte x)
      | None => Throw RangeError
      end
  | None => Throw RangeError
  end.

(** The collaborator that the object encoding of an instance selects. *)
Definition by_encoding {A : Type} (o : ObjectEncoding) (amf0 amf3 : A) : A :=
  match o with
  | AMF0 => amf0
  | AMF3 => amf3
  end.

(** The bytes [Buffer.from] makes of an array of numbers. *)
Definition octets (l : list number) : Buffer.t :=
  map (fun x => byte_of_Z (Number.ToUint32 x)) l.

(** * Properties *)

(** ** Unfolding the method monad *)

Ltac unmonad :=
  unfold bind, ret, throw, gets, modify, lift, exec, eval in *;
  cbv beta in *.

Ltac unmethod :=
  unfold store_by_endian in *;
  unfold by_endian, getBytesAvailable in *;
  unfold getLength, getPosition, getEndian, advance, post_increment, clear in *;
  unmonad.

Lemma length_nonneg (buf : Buffer.t) : 0 <= Buffer.length buf.
Proof. unfold Buffer.length. lia. Qed.

(** ** Signed overflow *)

(** C4. The standalone utility gives -56 for (200, 8) and -25536 for
    (40000, 16); for (2^31, 32) it gives 2^31, not -2^31: the sign bit
    [1 << 31] is itself negative in 32-bit arithmetic, so subtracting
    the masked sign adds 2^31 back. *)
Theorem signedOverflow_reference_values :
  signedOverflow (Int 200) (Int 8) = Int (-56) /\
  signedOverflow (Int 40000) (Int 16) = Int (-25536) /\
  signedOverflow (Int (2 ^ 31)) (Int 32) = Int (2 ^ 31) /\
  signedOverflow (Int (2 ^ 31)) (Int 32) <> Int (- 2 ^ 31).
Proof.
  repeat split; try (vm_compute; reflexivity).
  vm_compute. discriminate.
Qed.

(** At width 32 a negative input comes back as its unsigned reading. *)
Lemma signedOverflow_32_negative :
  signedOverflow (Int (-1)) (Int 32) = Int (2 ^ 32 - 1).
Proof. vm_compute. reflexivity. Qed.

(** ** Round trip of [writeInt] and [readInt] *)

(** C1. Writing 1 with [writeInt] stores the binary32 encoding of 1.0
    (3F 80 00 00), since the method calls the float writer; [readInt]
    then returns 1065353216, in either byte order. *)
Theorem writeInt_readInt_one :
  round_trip_Int "BE" 1 = Ret (Int 1065353216) /\
  round_trip_Int "LE" 1 = Ret (Int 1065353216) /\
  buffer (exec (writeInt (Int 1)) empty) = [Byte.x3f; Byte.x80; Byte.x00; Byte.x00].
Proof. repeat split; vm_compute; reflexivity. Qed.

(** Negative values fare no better: -1 is stored as the float 2^32. *)
Lemma writeInt_readInt_minus_one :
  round_trip_Int "BE" (-1) = Ret (Int 1333788672).
Proof. vm_compute. reflexivity. Qed.

(** Zero does survive, its float encoding being four zero bytes. *)
Lemma writeInt_readInt_zero :
  round_trip_Int "BE" 0 = Ret (Int 0) /\ round_trip_Int "LE" 0 = Ret (Int 0).
Proof. split; vm_compute; reflexivity. Qed.

(** ** Growth *)

Lemma copy_into_fresh (old : Buffer.t) (n : nat) :
  (List.length old <= n)%nat ->
  Buffer.copy old (replicate n Byte.x00)
  = old ++ replicate (n - List.length old) Byte.x00.
Proof.
  intros Hle. unfold Buffer.copy.
  rewrite length_replicate, take_ge by lia.
  rewrite drop_replicate. reflexivity.
Qed.

(** [expand(k)] with fewer than [k] bytes after an integral cursor [p]
    leaves a buffer of [p + k] bytes: the old ones, then zeros. *)
Lemma expand_short (b : ByteArray) (p k : Z) :
  position b = Int p ->
  Buffer.length (buffer b) - p < k ->
  expand (Int k) b
  = (Ret tt, with_buffer
       (buffer b ++ replicate (Z.to_nat (p + k - Buffer.length (buffer b))) Byte.x00) b).
Proof.
  intros Hp Hlt. pose proof (length_nonneg (buffer b)) as Hn.
  unfold expand. unmethod. rewrite Hp. cbn [Number.sub Number.ltb Number.add].
  destruct (Z.ltb_spec (Buffer.length (buffer b) - p) k) as [_|]; [|lia].
  unfold Buffer.alloc. cbn [Number.leb Number.trunc].
  destruct (Z.leb_spec 0 (Buffer.length (buffer b) + (k - (Buffer.length (buffer b) - p)))) as [_|]; [|lia].
  rewrite copy_into_fresh by (unfold Buffer.length in *; lia).
  repeat f_equal. unfold Buffer.length in *. lia.
Qed.

Lemma expand_enough (b : ByteArray) (p k : Z) :
  position b = Int p ->
  k <= Buffer.length (buffer b) - p ->
  expand (Int k) b = (Ret tt, b).
Proof.
  intros Hp Hle. unfold expand. unmethod. rewrite Hp. cbn [Number.sub Number.ltb].
  destruct (Z.ltb_spec (Buffer.length (buffer b) - p) k); [lia|reflexivity].
Qed.

(** ** [setLength] *)

(** C3. With an integral cursor [p >= 0], [setLength(n)] for [n] above
    the length grows storage to [n + p] bytes, not to [n]: the request
    is handed to [expand], which counts from the cursor.  The new region
    is zero-filled and the cursor stays. *)
Theorem setLength_grows_past_request (b : ByteArray) (p n : Z) :
  position b = Int p ->
  0 <= p ->
  Buffer.length (buffer b) < n ->
  setLength (Int n) b
  = (Ret tt, with_buffer
       (buffer b ++ replicate (Z.to_nat (p + n - Buffer.length (buffer b))) Byte.x00) b)
  /\ eval (setLength (Int n) >> getLength) b = Ret (Int (n + p)).
Proof.
  intros Hp Hp0 Hlt. pose proof (length_nonneg (buffer b)) as Hn.
  assert (Hset : setLength (Int n) b
    = (Ret tt, with_buffer
         (buffer b ++ replicate (Z.to_nat (p + n - Buffer.length (buffer b))) Byte.x00) b)).
  { unfold setLength. cbn [Number.isInteger Number.to_int Number.ltb Number.eqb negb orb].
    destruct (Z.ltb_spec n 0); [lia|].
    destruct (Z.eqb_spec n 0); [lia|].
    unfold bind at 1. unfold getLength at 1, gets at 1.
    cbn [Number.eqb Number.ltb].
    destruct (Z.eqb_spec n (Buffer.length (buffer b))); [lia|].
    destruct (Z.ltb_spec n (Buffer.length (buffer b))); [lia|].
    cbn [negb]. apply expand_short; [assumption|lia]. }
  split; [exact Hset|].
  unfold eval, bind. rewrite Hset. unfold getLength, gets. cbn [fst with_buffer buffer].
  do 2 f_equal. unfold Buffer.length in *.
  rewrite length_app, length_replicate. lia.
Qed.

Lemma setLength_grows_past_request_witness :
  let b := exec (writeByte (Int 1) >> writeByte (Int 2)) empty in
  position b = Int 2 /\
  Buffer.length (buffer b) = 2 /\
  eval (setLength (Int 5) >> getLength) b = Ret (Int 7).
Proof.
  cbv zeta. split; [reflexivity|]. split; [reflexivity|].
  refine (proj2 (setLength_grows_past_request _ 2 5 _ _ _)).
  - reflexivity.
  - lia.
  - vm_compute. reflexivity.
Defined.

(** C6. [setLength(n)] for [0 <= n] below the length keeps the first
    [n] bytes and puts the cursor at [n], wherever it was. *)
Theorem setLength_truncates (b : ByteArray) (n : Z) :
  0 <= n ->
  n < Buffer.length (buffer b) ->
  setLength (Int n) b
  = (Ret tt, with_position (Int n) (with_buffer (take (Z.to_nat n) (buffer b)) b)).
Proof.
  intros Hn Hlt.
  unfold setLength. cbn [Number.isInteger Number.to_int Number.ltb Number.eqb negb orb].
  destruct (Z.ltb_spec n 0); [lia|].
  destruct (Z.eqb_spec n 0) as [->|Hne].
  - unfold clear, modify. reflexivity.
  - unmethod. cbn [Number.eqb Number.ltb].
    destruct (Z.eqb_spec n (Buffer.length (buffer b))); [lia|].
    destruct (Z.ltb_spec n (Buffer.length (buffer b))); [|lia].
    cbn [negb with_buffer buffer Buffer.slice0 Number.to_int].
    unfold with_position, with_buffer. cbn. do 3 f_equal.
    unfold Buffer.length in *. rewrite length_take. lia.
Qed.

Lemma setLength_truncates_witness :
  setLength (Int 1) (mkByteArray (Int 3) BIG_ENDIAN AMF3 [Byte.x0a; Byte.x0b; Byte.x0c])
  = (Ret tt, mkByteArray (Int 1) BIG_ENDIAN AMF3 [Byte.x0a]).
Proof.
  apply (setLength_truncates
           (mkByteArray (Int 3) BIG_ENDIAN AMF3 [Byte.x0a; Byte.x0b; Byte.x0c]) 1).
  - lia.
  - vm_compute. reflexivity.
Defined.

(** ** Reads *)

Lemma check_bounds_short (buf : Buffer.t) (p k : Z) :
  Buffer.length buf - p < k ->
  Buffer.check_bounds buf (Int p) k = Throw RangeError.
Proof.
  intros Hlt. unfold Buffer.check_bounds. cbn [Number.to_int].
  destruct (Z.leb_spec 0 p); cbn [andb]; [|reflexivity].
  destruct (Z.leb_spec (p + k) (Buffer.length buf)); [lia|reflexivity].
Qed.

Lemma check_bounds_inside (buf : Buffer.t) (p k : Z) :
  0 <= p ->
  p + k <= Buffer.length buf ->
  Buffer.check_bounds buf (Int p) k = Ret p.
Proof.
  intros H0 Hle. unfold Buffer.check_bounds. cbn [Number.to_int].
  destruct (Z.leb_spec 0 p); [|lia].
  destruct (Z.leb_spec (p + k) (Buffer.length buf)); [reflexivity|lia].
Qed.

(** C7. With an integral cursor and fewer than 4 bytes after it,
    [readInt] throws a RangeError, the class of the end-of-buffer
    failures, and leaves the instance as it was: the cursor does not
    move. *)
Theorem readInt_short_fails (b : ByteArray) (p : Z) :
  position b = Int p ->
  Buffer.length (buffer b) - p < 4 ->
  readInt b = (Throw RangeError, b).
Proof.
  intros Hp Hlt. unfold readInt. unmethod.
  unfold Buffer.readInt32BE, Buffer.readInt32LE, Buffer.as_number,
    Buffer.readInt, Buffer.readUInt.
  rewrite Hp, check_bounds_short by assumption.
  destruct (endian b); reflexivity.
Qed.

Lemma readInt_short_fails_witness :
  let b := mkByteArray (Int 0) BIG_ENDIAN AMF3 [Byte.x01; Byte.x02] in
  eval getBytesAvailable b = Ret (Int 2) /\
  readInt b = (Throw RangeError, b).
Proof.
  cbv zeta. split; [reflexivity|].
  apply (readInt_short_fails _ 0).
  - reflexivity.
  - vm_compute. reflexivity.
Defined.

(** C2. Whenever [readLong] finds its 8 bytes, it decodes all 8 of them
    and moves the cursor by 4. *)
Theorem readLong_advances_by_4 (b : ByteArray) (p : Z) :
  position b = Int p ->
  0 <= p ->
  p + 8 <= Buffer.length (buffer b) ->
  readLong b
  = (Ret (Number_of_BigInt
            (Buffer.signed 8
               (Buffer.decode (is_big (endian b)) (Buffer.window (buffer b) p 8)))),
     with_position (Int (p + 4)) b).
Proof.
  intros Hp H0 Hle. unfold readLong. unmethod.
  unfold Buffer.readBigInt64BE, Buffer.readBigInt64LE, Buffer.readInt, Buffer.readUInt.
  rewrite Hp, check_bounds_inside by assumption.
  destruct (endian b); cbv beta iota; rewrite Hp; reflexivity.
Qed.

Lemma readLong_advances_by_4_witness :
  readLong (mkByteArray (Int 0) BIG_ENDIAN AMF3 (replicate 8 Byte.xff))
  = (Ret (Int (-1)), mkByteArray (Int 4) BIG_ENDIAN AMF3 (replicate 8 Byte.xff)).
Proof.
  apply (readLong_advances_by_4
           (mkByteArray (Int 0) BIG_ENDIAN AMF3 (replicate 8 Byte.xff)) 0).
  - reflexivity.
  - lia.
  - vm_compute. discriminate.
Defined.

(** Every other fixed-width read moves the cursor by its width. *)
Lemma read_advances_by_width (r : reader) (b : ByteArray) (p : Z) :
  r <> RLong ->
  position b = Int p ->
  0 <= p ->
  p + read_width r <= Buffer.length (buffer b) ->
  exists value, read r b = (Ret value, with_position (Int (p + read_width r)) b).
Proof.
  intros Hr Hp H0 Hle.
  destruct r; try congruence; cbn [read read_width] in *;
    unfold readByte, readDouble, readFloat, readInt, readShort, readUnsignedByte,
      readUnsignedInt, readUnsignedShort, readUnsignedLong;
    unmethod;
    unfold Buffer.readInt8, Buffer.readUInt8, Buffer.readInt16BE, Buffer.readInt16LE,
      Buffer.readUInt16BE, Buffer.readUInt16LE, Buffer.readInt32BE, Buffer.readInt32LE,
      Buffer.readUInt32BE, Buffer.readUInt32LE, Buffer.readBigUInt64BE,
      Buffer.readBigUInt64LE, Buffer.readFloatBE, Buffer.readFloatLE,
      Buffer.readDoubleBE, Buffer.readDoubleLE, Buffer.readFloat, Buffer.readDouble,
      Buffer.as_number, Buffer.readInt, Buffer.readUInt;
    rewrite Hp, check_bounds_inside by assumption;
    destruct (endian b); cbv beta iota; rewrite ?Hp; cbn [Number.add];
    eexists; reflexivity.
Qed.

(** A read that does not find its bytes after an integral cursor throws,
    [readLong] included. *)
Lemma read_short_fails (r : reader) (b : ByteArray) (p : Z) :
  position b = Int p ->
  Buffer.length (buffer b) - p < read_width r ->
  eval (read r) b = Throw RangeError.
Proof.
  intros Hp Hlt.
  destruct r; cbn [read read_width] in *;
    unfold readByte, readDouble, readFloat, readInt, readLong, readShort,
      readUnsignedByte, readUnsignedInt, readUnsignedShort, readUnsignedLong;
    unmethod;
    unfold Buffer.readInt8, Buffer.readUInt8, Buffer.readInt16BE, Buffer.readInt16LE,
      Buffer.readUInt16BE, Buffer.readUInt16LE, Buffer.readInt32BE, Buffer.readInt32LE,
      Buffer.readUInt32BE, Buffer.readUInt32LE, Buffer.readBigInt64BE,
      Buffer.readBigInt64LE, Buffer.readBigUInt64BE,
      Buffer.readBigUInt64LE, Buffer.readFloatBE, Buffer.readFloatLE,
      Buffer.readDoubleBE, Buffer.readDoubleLE, Buffer.readFloat, Buffer.readDouble,
      Buffer.as_number, Buffer.readInt, Buffer.readUInt;
    rewrite Hp, check_bounds_short by assumption;
    destruct (endian b); reflexivity.
Qed.

(** ** The cursor *)

(** C10. The guard [v >= 0] fails exactly when [v < 0] or [v] is NaN;
    [setPosition(v)] then throws and changes nothing.  Any other number,
    integral or not, becomes the position as it is. *)
Theorem setPosition_outcome (v : number) (b : ByteArray) :
  Number.leb (Int 0) v = negb (Number.ltb v (Int 0) || Number.isNaN v) /\
  setPosition v b
  = if Number.ltb v (Int 0) || Number.isNaN v
    then (Throw TypeError, b)
    else (Ret tt, with_position v b).
Proof.
  unfold setPosition, throw, modify.
  destruct v as [z | f].
  - cbn [Number.leb Number.ltb Number.isNaN].
    destruct (Z.leb_spec 0 z), (Z.ltb_spec z 0); cbn [orb negb];
      (split; reflexivity) || lia.
  - destruct f as [s | s | | s m e]; try destruct s; split; reflexivity.
Qed.

(** NaN is rejected although it is not below zero. *)
Lemma setPosition_NaN_rejected :
  ~ (eval (setPosition Number.NaN) empty = Throw TypeError <-> Number.ltb Number.NaN (Int 0) = true).
Proof.
  intros [Hfail _].
  assert (H : Number.ltb Number.NaN (Int 0) = true) by (apply Hfail; reflexivity).
  vm_compute in H. discriminate.
Qed.

(** 1.5 is accepted and stored; no later read or write through an
    accessor can succeed at such a position. *)
Lemma setPosition_one_and_a_half :
  setPosition Number.one_and_a_half empty = (Ret tt, with_position Number.one_and_a_half empty) /\
  Number.isInteger Number.one_and_a_half = false.
Proof. split; reflexivity. Qed.

(** ** Strings *)

Section CharsetProperties.

Variable encodingExists : string -> bool.
Variable encode : Buffer.jsstring -> string -> Buffer.t.

(** C5. For a charset the collaborator knows, [writeMultiByte] appends
    the encoded bytes at the end of storage, wherever the cursor is,
    and moves the cursor by the UTF-8 length of the string, whatever
    was appended. *)
Theorem writeMultiByte_appends (s : Buffer.jsstring) (charset : string) (b : ByteArray) :
  encodingExists charset = true ->
  writeMultiByte encodingExists encode s charset b
  = (Ret tt,
     mkByteArray (Number.add (position b) (Int (Buffer.byteLength s)))
       (endian b) (objectEncoding b) (buffer b ++ encode s charset)).
Proof.
  intros Hex. unfold writeMultiByte. unmethod. rewrite Hex. reflexivity.
Qed.

(** For an unknown charset the method throws, the cursor having moved. *)
Lemma writeMultiByte_unknown (s : Buffer.jsstring) (charset : string) (b : ByteArray) :
  encodingExists charset = false ->
  writeMultiByte encodingExists encode s charset b
  = (Throw Error,
     with_position (Number.add (position b) (Int (Buffer.byteLength s))) b).
Proof.
  intros Hex. unfold writeMultiByte. unmethod. rewrite Hex. reflexivity.
Qed.

End CharsetProperties.

(** ** Writes past the end *)

Lemma length_le_encode (k : nat) (z : Z) : List.length (Buffer.le_encode k z) = k.
Proof.
  revert z. induction k as [|k IH]; intros z; cbn [Buffer.le_encode List.length].
  - reflexivity.
  - rewrite IH. reflexivity.
Qed.

Lemma length_encode (big : bool) (k : nat) (z : Z) :
  Buffer.length (Buffer.encode big k z) = Z.of_nat k.
Proof.
  unfold Buffer.length, Buffer.encode, Buffer.be_encode.
  destruct big; rewrite ?length_rev, length_le_encode; reflexivity.
Qed.

Lemma length_int_payload big k min max value bytes :
  Buffer.int_payload big k min max value = Some bytes ->
  Buffer.length bytes = Z.of_nat k.
Proof.
  unfold Buffer.int_payload.
  destruct (_ || _); [discriminate|].
  intros [= <-]. apply length_encode.
Qed.

Lemma length_bigint_bytes big min max value bytes :
  bigint_bytes big min max value = Some bytes ->
  Buffer.length bytes = 8.
Proof.
  unfold bigint_bytes, Buffer.bigint_payload.
  destruct (Number.to_int value); [|discriminate].
  destruct (_ || _); [discriminate|].
  intros [= <-]. apply (length_encode big 8).
Qed.

Lemma length_payload (w : writer) (e : Endian) (v : number) (bytes : Buffer.t) :
  payload w e v = Some bytes ->
  Buffer.length bytes = width w.
Proof.
  destruct w; cbn [payload width];
    unfold Buffer.float_payload, Buffer.double_payload;
    try (intros [= <-]; apply length_encode);
    try (intros H; apply length_int_payload in H; exact H);
    try (intros H; apply length_bigint_bytes in H; exact H).
Qed.

(** Writing [bytes] at [p] into storage that [expand] has just extended
    from below [p] to [p + |bytes|]: the old bytes, zeros up to [p], then
    [bytes]. *)
Lemma splice_after_growth (old bytes : Buffer.t) (p : Z) :
  Buffer.length old <= p ->
  Buffer.splice
    (old ++ replicate (Z.to_nat (p + Buffer.length bytes - Buffer.length old)) Byte.x00)
    p bytes
  = old ++ replicate (Z.to_nat (p - Buffer.length old)) Byte.x00 ++ bytes.
Proof.
  intros Hle. unfold Buffer.splice, Buffer.length in *.
  rewrite take_app_ge by lia. rewrite take_replicate.
  rewrite drop_ge by (rewrite length_app, length_replicate; lia).
  rewrite app_nil_r, <- app_assoc. do 3 f_equal. lia.
Qed.

Lemma store_after_growth (b : ByteArray) (p : Z) (bytes : Buffer.t) :
  Buffer.length (buffer b) < p ->
  Buffer.store (Some bytes) (Buffer.length bytes)
    (buffer b ++ replicate (Z.to_nat (p + Buffer.length bytes - Buffer.length (buffer b))) Byte.x00)
    (Int p)
  = Ret (buffer (written b p bytes)).
Proof.
  intros Hlt. pose proof (length_nonneg (buffer b)). pose proof (length_nonneg bytes).
  unfold Buffer.store. rewrite check_bounds_inside.
  - rewrite splice_after_growth by lia. reflexivity.
  - lia.
  - unfold Buffer.length in *. rewrite length_app, length_replicate. lia.
Qed.

(** C9. With the cursor at an integer [p] strictly beyond the length, a
    fixed-width write that accepts its value leaves [p + k] bytes of
    storage: the old bytes, zeros from the old length up to [p], and the
    [k] bytes of the value at [p]; the cursor ends at [p + k]. *)
Theorem write_beyond_length (w : writer) (v : number) (b : ByteArray)
    (p : Z) (bytes : Buffer.t) :
  position b = Int p ->
  Buffer.length (buffer b) < p ->
  payload w (endian b) v = Some bytes ->
  write w v b = (Ret tt, written b p bytes) /\
  Buffer.length bytes = width w /\
  Buffer.length (buffer (written b p bytes)) = p + width w.
Proof.
  intros Hp Hlt Hpay.
  pose proof (length_payload _ _ _ _ Hpay) as Hlen.
  pose proof (length_nonneg (buffer b)) as Hn.
  split; [|split; [exact Hlen|]].
  - pose proof (store_after_growth b p bytes Hlt) as Hstore.
    rewrite Hlen in Hstore.
    pose proof (expand_short b p (width w) Hp ltac:(destruct w; cbn [width]; lia)) as Hexp.
    destruct w; cbn [write width payload] in *.
    all: unfold writeByte, writeDouble, writeFloat, writeInt, writeLong, writeShort,
           writeUnsignedByte, writeUnsignedInt, writeUnsignedShort, writeUnsignedLong.
    all: unfold bind at 1; rewrite Hexp; cbv beta iota.
    all: unfold bigint_bytes, BigInt in *.
    all: try (destruct (Number.to_int v) as [z|]; [|discriminate Hpay]).
    all: unmethod; cbn [position endian buffer with_buffer objectEncoding].
    all: unfold Buffer.writeInt8, Buffer.writeUInt8, Buffer.writeInt16BE,
           Buffer.writeInt16LE, Buffer.writeUInt16BE, Buffer.writeUInt16LE,
           Buffer.writeUInt32BE, Buffer.writeUInt32LE, Buffer.writeBigInt64BE,
           Buffer.writeBigInt64LE, Buffer.writeBigUInt64BE, Buffer.writeBigUInt64LE,
           Buffer.writeFloatBE, Buffer.writeFloatLE, Buffer.writeDoubleBE,
           Buffer.writeDoubleLE, Buffer.writeFloat, Buffer.writeDouble,
           Buffer.writeInt, Buffer.writeBigInt.
    all: rewrite ?Hp.
    all: try (destruct (endian b) eqn:He; cbn [is_big] in Hpay).
    all: repeat match goal with
                |- context [Z.of_nat ?n] =>
                  let r := eval vm_compute in (Z.of_nat n) in
                  change (Z.of_nat n) with r
                end.
    all: rewrite Hpay, Hstore.
    all: unfold written, with_position, with_buffer;
         cbn [position endian buffer objectEncoding];
         rewrite ?He, ?Hp, Hlen; reflexivity.
  - unfold written, Buffer.length in *. cbn [buffer].
    rewrite !length_app, length_replicate. lia.
Qed.

Lemma land_pow2 (x n : Z) :
  0 <= n -> Z.land x (2 ^ n) = 2 ^ n * ((x / 2 ^ n) mod 2).
Proof.
  intros Hn. rewrite <- Z.testbit_spec' by assumption.
  apply Z.bits_inj'. intros k Hk.
  rewrite Z.land_spec, Z.pow2_bits_eqb by assumption.
  destruct (Z.eqb_spec n k) as [->|Hne].
  - destruct (Z.testbit x k); cbn [Z.b2z andb].
    + rewrite Z.mul_1_r. symmetry. apply Z.pow2_bits_true. assumption.
    + rewrite Z.mul_0_r. symmetry. apply Z.bits_0.
  - rewrite andb_false_r.
    destruct (Z.testbit x n); cbn [Z.b2z].
    + rewrite Z.mul_1_r. symmetry. apply Z.pow2_bits_false. assumption.
    + rewrite Z.mul_0_r. symmetry. apply Z.bits_0.
Qed.

(** At width 8 the overflow emulation yields the signed byte congruent
    to its argument. *)
Lemma signedOverflow_8 (v : number) :
  exists r, signedOverflow v (Int 8) = Int r /\
            - 128 <= r <= 127 /\
            r mod 256 = Number.ToInt32 v mod 256.
Proof.
  unfold signedOverflow.
  change (Number.shl (Int 1) (Number.sub (Int 8) (Int 1))) with (Int (2 ^ 7)).
  cbn [Number.sub]. unfold Number.band.
  change (Number.ToInt32 (Int (2 ^ 7 - 1))) with (Z.ones 7).
  change (Number.ToInt32 (Int (2 ^ 7))) with (2 ^ 7).
  set (x := Number.ToInt32 v).
  rewrite Z.land_ones, land_pow2 by lia.
  eexists. split; [reflexivity|].
  pose proof (Z.rem_mul_r x (2 ^ 7) 2 ltac:(lia) ltac:(lia)) as Hsplit.
  change (2 ^ 7 * 2) with 256 in Hsplit.
  pose proof (Z.mod_pos_bound x (2 ^ 7) ltac:(lia)) as Hlow.
  pose proof (Z.mod_pos_bound (x / 2 ^ 7) 2 ltac:(lia)) as Hbit.
  change (2 ^ 7) with 128 in *.
  split; [lia|].
  replace (x mod 128 - 128 * ((x / 128) mod 2))
    with (x mod 256 + (- ((x / 128) mod 2)) * 256) by lia.
  rewrite Z.mod_add by lia. apply Z.mod_mod. lia.
Qed.

Lemma byte_of_Z_mod (a b : Z) : a mod 256 = b mod 256 -> byte_of_Z a = byte_of_Z b.
Proof. unfold byte_of_Z. intros ->. reflexivity. Qed.

(** [writeByte] accepts every number and stores its low byte. *)
Lemma payload_WByte (e : Endian) (v : number) :
  payload WByte e v = Some [byte_of_Z (Number.ToInt32 v)].
Proof.
  cbn [payload]. destruct (signedOverflow_8 v) as (r & -> & Hr & Hmod).
  unfold Buffer.int_payload. cbn [Number.ltb].
  change (2 ^ 7 - 1) with 127. change (- 2 ^ 7) with (-128).
  destruct (Z.ltb_spec 127 r); [lia|]. destruct (Z.ltb_spec r (-128)); [lia|].
  cbn [orb Buffer.encode Buffer.be_encode Buffer.le_encode rev app].
  do 2 f_equal. apply byte_of_Z_mod. rewrite <- Hmod.
  unfold Number.ToUint32. cbn [Number.trunc].
  change 256 with (2 ^ 8). rewrite <- !Z.land_ones by lia.
  rewrite <- Z.land_assoc. f_equal.
Qed.

Lemma write_beyond_length_witness :
  writeByte (Int 7) (mkByteArray (Int 3) BIG_ENDIAN AMF3 [Byte.x01])
  = (Ret tt, mkByteArray (Int 4) BIG_ENDIAN AMF3
               [Byte.x01; Byte.x00; Byte.x00; Byte.x07]).
Proof.
  refine (proj1 (write_beyond_length WByte (Int 7)
           (mkByteArray (Int 3) BIG_ENDIAN AMF3 [Byte.x01]) 3 [Byte.x07] _ _ _)).
  - reflexivity.
  - vm_compute. reflexivity.
  - reflexivity.
Defined.

Lemma writeMultiByte_appends_witness :
  writeMultiByte utf16le_exists utf16le_encode [104; 105] "utf16le"
    (mkByteArray (Int 0) BIG_ENDIAN AMF3 [Byte.x01])
  = (Ret tt, mkByteArray (Int 2) BIG_ENDIAN AMF3
               [Byte.x01; Byte.x68; Byte.x00; Byte.x69; Byte.x00]).
Proof.
  apply (writeMultiByte_appends utf16le_exists utf16le_encode [104; 105] "utf16le"
           (mkByteArray (Int 0) BIG_ENDIAN AMF3 [Byte.x01])).
  reflexivity.
Defined.

(** ** Bulk reads *)

Lemma on_lookup {A} (r : ref) (m : method A) (h : heap) (b : ByteArray) :
  h !! r = Some b ->
  on r m h = (fst (m b), <[r := snd (m b)]> h).
Proof. intros Hb. unfold on. rewrite Hb. destruct (m b). reflexivity. Qed.

Lemma on_unchanged {A} (r : ref) (m : method A) (h : heap) (b : ByteArray) (o : outcome A) :
  h !! r = Some b ->
  m b = (o, b) ->
  on r m h = (o, h).
Proof.
  intros Hb Hm. rewrite (on_lookup r m h b Hb), Hm. cbn [fst snd].
  rewrite insert_id by assumption. reflexivity.
Qed.

Lemma length_copied from pos offset n i to :
  List.length (copied from pos offset n i to) = List.length to.
Proof.
  revert i to. induction n as [|n IH]; intros i to; cbn [copied]; [reflexivity|].
  rewrite IH. unfold Buffer.set. cbn [Number.to_int].
  destruct (0 <=? i + offset); [apply length_insert|reflexivity].
Qed.

(** The loop copies [from[p + i ..]] over [to[offset + i ..]], byte by
    byte, and touches nothing else. *)
Lemma copied_lookup (from : Buffer.t) (p offset : Z) (n : nat) (i : Z) (to : Buffer.t) (j : nat) :
  0 <= i -> 0 <= offset -> 0 <= p ->
  i + Z.of_nat n + p <= Buffer.length from ->
  i + Z.of_nat n + offset <= Buffer.length to ->
  copied from (Int p) offset n i to !! j
  = if (i + offset <=? Z.of_nat j) && (Z.of_nat j <? i + offset + Z.of_nat n)
    then from !! Z.to_nat (Z.of_nat j - offset + p)
    else to !! j.
Proof.
  revert i to. induction n as [|n IH]; intros i to Hi Ho Hp Hfrom Hto; cbn [copied].
  - destruct (Z.leb_spec (i + offset) (Z.of_nat j)), (Z.ltb_spec (Z.of_nat j) (i + offset + Z.of_nat 0));
      cbn [andb]; (reflexivity || lia).
  - unfold Buffer.length in *.
    assert (Hset : Buffer.set to (Int (i + offset)) (Buffer.get from (Number.add (Int i) (Int p)))
                   = <[Z.to_nat (i + offset) := default Byte.x00 (from !! Z.to_nat (i + p))]> to).
    { unfold Buffer.set, Buffer.get. cbn [Number.add Number.to_int].
      destruct (Z.leb_spec 0 (i + offset)); [|lia].
      destruct (Z.leb_spec 0 (i + p)); [|lia]. reflexivity. }
    rewrite Hset, IH by (rewrite ?length_insert; lia).
    destruct (lookup_lt_is_Some_2 from (Z.to_nat (i + p)) ltac:(lia)) as [x Hx].
    rewrite Hx. cbn [default].
    destruct (Z.leb_spec (i + 1 + offset) (Z.of_nat j)),
             (Z.ltb_spec (Z.of_nat j) (i + 1 + offset + Z.of_nat n)),
             (Z.leb_spec (i + offset) (Z.of_nat j)),
             (Z.ltb_spec (Z.of_nat j) (i + offset + Z.of_nat (S n)));
      cbn [andb]; try lia; try reflexivity;
      try (apply list_lookup_insert_ne; lia).
    assert (j = Z.to_nat (i + offset)) as -> by lia.
    rewrite list_lookup_insert_eq by lia.
    unfold id. rewrite <- Hx. f_equal. lia.
Qed.

Lemma with_buffer_same (b : ByteArray) : with_buffer (buffer b) b = b.
Proof. destruct b. reflexivity. Qed.

(** With two distinct instances the loop acts on the destination storage
    alone, as [copied] describes. *)
Lemma for_loop_read_step (this bytes : ref) (src : ByteArray) (offset : Z) (n : nat) :
  this <> bytes ->
  forall (i : Z) (d : ByteArray) (h : heap),
    h !! this = Some src ->
    h !! bytes = Some d ->
    for_loop n i (read_step this bytes offset) h
    = (Ret tt,
       <[bytes := with_buffer
                    (copied (buffer src) (position src) offset n i (buffer d)) d]> h).
Proof.
  intros Hne. induction n as [|n IH]; intros i d h Hsrc Hd; cbn [for_loop copied].
  - rewrite with_buffer_same, insert_id by assumption. reflexivity.
  - unfold bind at 1. unfold read_step at 1. unfold bind at 1.
    rewrite (on_lookup this _ h src Hsrc). cbn [fst snd].
    rewrite (insert_id h this src Hsrc).
    rewrite (on_lookup bytes _ h d Hd). unfold modify. cbn [fst snd].
    erewrite IH; cycle 1.
    + rewrite lookup_insert_ne by congruence. exact Hsrc.
    + apply lookup_insert_eq.
    + rewrite insert_insert_eq. reflexivity.
Qed.

Lemma on_getBytesAvailable (r : ref) (h : heap) (b : ByteArray) (p : Z) :
  h !! r = Some b ->
  position b = Int p ->
  on r getBytesAvailable h = (Ret (Int (Buffer.length (buffer b) - p)), h).
Proof.
  intros Hb Hp. apply (on_unchanged r _ h b _ Hb).
  unmethod. rewrite Hp. reflexivity.
Qed.

(** The destination storage once [readBytes] has made room in it. *)
Lemma readBytes_makes_room (bytes : ref) (h : heap) (dst : ByteArray) (q need : Z) :
  h !! bytes = Some dst ->
  position dst = Int q ->
  0 <= q ->
  exists room,
    (if Buffer.length (buffer dst) <? need
     then on bytes (expand (Int need))
     else ret tt) h
    = (Ret tt, <[bytes := with_buffer room dst]> h) /\
    need <= Buffer.length room /\
    (forall j : nat, (j < List.length (buffer dst))%nat -> room !! j = buffer dst !! j).
Proof.
  intros Hd Hq Hq0.
  destruct (Z.ltb_spec (Buffer.length (buffer dst)) need) as [Hlt|Hge].
  - eexists. split; [|split].
    + rewrite (on_lookup bytes _ h dst Hd).
      rewrite (expand_short dst q need Hq ltac:(lia)). reflexivity.
    + unfold Buffer.length in *. rewrite length_app, length_replicate. lia.
    + intros j Hj. apply lookup_app_l. assumption.
  - exists (buffer dst). split; [|split].
    + unfold ret. rewrite with_buffer_same, insert_id by assumption. reflexivity.
    + assumption.
    + reflexivity.
Qed.

(** C8. For two distinct instances with integral, non-negative cursors
    and a non-negative [offset]: with [n] the bytes available in the source
    when [length] is 0 and [length] otherwise, [readBytes] throws a
    RangeError and changes nothing when [n] exceeds the bytes available;
    otherwise it copies the [n] bytes after the source cursor to
    [offset ..] in the destination, keeps every other byte the
    destination had, moves the source cursor by [n] and leaves the
    destination cursor, like both instances' other fields, as it was. *)
Theorem readBytes_copies (this bytes : ref) (src dst : ByteArray)
    (p q offset length : Z) (h : heap) :
  this <> bytes ->
  h !! this = Some src ->
  h !! bytes = Some dst ->
  position src = Int p ->
  position dst = Int q ->
  0 <= p -> 0 <= q -> 0 <= offset ->
  let avail := Buffer.length (buffer src) - p in
  let n := if length =? 0 then avail else length in
  if avail <? n
  then readBytes this bytes offset length h = (Throw RangeError, h)
  else exists copy,
    readBytes this bytes offset length h
    = (Ret tt, <[this := with_position (Int (p + n)) src]>
                 (<[bytes := with_buffer copy dst]> h)) /\
    (forall j, 0 <= j < n ->
       copy !! Z.to_nat (offset + j) = buffer src !! Z.to_nat (p + j)) /\
    (forall j : nat, (j < List.length (buffer dst))%nat ->
       ~ (offset <= Z.of_nat j < offset + n) ->
       copy !! j = buffer dst !! j).
Proof.
  intros Hne Hsrc Hdst Hp Hq Hp0 Hq0 Ho avail n.
  pose proof (on_getBytesAvailable this h src p Hsrc Hp) as Havail.
  fold avail in Havail.
  assert (Hn : (if length =? 0 then on this getBytesAvailable else ret (Int length)) h
               = (Ret (Int n), h)).
  { subst n. destruct (length =? 0); [exact Havail|reflexivity]. }
  assert (Hcheck : readBytes this bytes offset length h
                   = if avail <? n then (Throw RangeError, h)
                     else (let! blen := on bytes getLength in
                           (if Number.ltb blen (Number.add (Int offset) (Int n))
                            then on bytes (expand (Number.add (Int offset) (Int n)))
                            else ret tt) >>
                           for_loop (trip_count (Int n)) 0 (read_step this bytes offset) >>
                           on this (advance (Int n))) h).
  { unfold readBytes. unfold bind at 1. rewrite Hn.
    unfold bind at 1. rewrite Havail. cbn [Number.ltb].
    destruct (avail <? n); reflexivity. }
  rewrite Hcheck. clear Hcheck.
  destruct (Z.ltb_spec avail n) as [Hfew|Henough]; [reflexivity|].
  unfold bind at 1.
  rewrite (on_unchanged bytes getLength h dst _ Hdst eq_refl).
  cbn [Number.add Number.ltb].
  destruct (readBytes_makes_room bytes h dst q (offset + n) Hdst Hq Hq0)
    as (room & Hroom & Hfits & Hkept).
  unfold bind at 1. rewrite Hroom.
  unfold bind at 1. cbn [trip_count].
  rewrite (for_loop_read_step this bytes src offset (Z.to_nat n) Hne 0
             (with_buffer room dst) _);
    [| rewrite lookup_insert_ne by congruence; exact Hsrc | apply lookup_insert_eq ].
  rewrite insert_insert_eq. cbn [buffer with_buffer].
  erewrite on_lookup by (rewrite lookup_insert_ne by congruence; exact Hsrc).
  unfold advance, modify. cbn [fst snd]. rewrite Hp. cbn [Number.add].
  eexists. split; [reflexivity|].
  destruct (Z.le_gt_cases n 0) as [Hnone|Hsome].
  - replace (Z.to_nat n) with O by lia. cbn [copied].
    split; [intros j Hj; lia|]. intros j Hj _. apply Hkept. assumption.
  - split.
    + intros j Hj. rewrite copied_lookup by (subst avail; lia).
      destruct (Z.leb_spec (0 + offset) (Z.of_nat (Z.to_nat (offset + j)))); [|lia].
      destruct (Z.ltb_spec (Z.of_nat (Z.to_nat (offset + j)))
                  (0 + offset + Z.of_nat (Z.to_nat n))); [|lia].
      cbn [andb]. f_equal. lia.
    + intros j Hj Hout. rewrite copied_lookup by (subst avail; lia).
      destruct (Z.leb_spec (0 + offset) (Z.of_nat j)),
               (Z.ltb_spec (Z.of_nat j) (0 + offset + Z.of_nat (Z.to_nat n)));
        cbn [andb]; try (apply Hkept; assumption).
      lia.
Qed.

Lemma readBytes_copies_witness :
  exists copy,
    readBytes 1 2 0 0 two_instances
    = (Ret tt, <[1%positive := with_position (Int 3) source_instance]>
                 (<[2%positive := with_buffer copy destination_instance]> two_instances)) /\
    (forall j, 0 <= j < 2 ->
       copy !! Z.to_nat (0 + j) = buffer source_instance !! Z.to_nat (1 + j)) /\
    (forall j : nat, (j < List.length (buffer destination_instance))%nat ->
       ~ (0 <= Z.of_nat j < 0 + 2) ->
       copy !! j = buffer destination_instance !! j).
Proof.
  refine (readBytes_copies 1 2 source_instance destination_instance 1 1 0 0
            two_instances _ _ _ _ _ _ _ _).
  - discriminate.
  - reflexivity.
  - reflexivity.
  - reflexivity.
  - reflexivity.
  - lia.
  - lia.
  - lia.
Defined.

(** The run behind the example: the destination holds the two copied
    bytes, followed by one byte of growth counted from its own cursor. *)
Lemma readBytes_two_instances :
  let h := exec (readBytes 1 2 0 0) two_instances in
  eval (readBytes 1 2 0 0) two_instances = Ret tt /\
  h !! 1%positive = Some (with_position (Int 3) source_instance) /\
  h !! 2%positive
  = Some (with_buffer [Byte.x02; Byte.x03; Byte.x00] destination_instance).
Proof. cbv zeta. repeat split; vm_compute; reflexivity. Qed.

(** A request for more than is available throws and changes nothing. *)
Lemma readBytes_two_instances_short :
  readBytes 1 2 0 3 two_instances = (Throw RangeError, two_instances).
Proof. vm_compute. reflexivity. Qed.

(** When the destination is the source itself there is one cursor, and
    it moves. *)
Lemma readBytes_onto_itself :
  exec (readBytes 1 1 0 0) two_instances !! 1%positive
  = Some (mkByteArray (Int 3) BIG_ENDIAN AMF3 [Byte.x02; Byte.x03; Byte.x03]).
Proof. vm_compute. reflexivity. Qed.

(** * Further properties *)

(** ** Growth *)

Lemma expand_run (b : ByteArray) (p k : Z) :
  position b = Int p ->
  expand (Int k) b = (Ret tt, with_buffer (grown (buffer b) p k) b).
Proof.
  intros Hp. unfold grown.
  destruct (Z.lt_ge_cases (Buffer.length (buffer b) - p) k) as [Hlt|Hge].
  - apply expand_short; assumption.
  - rewrite (expand_enough b p k Hp) by lia.
    replace (Z.to_nat (p + k - Buffer.length (buffer b))) with O by lia.
    cbn [replicate]. rewrite app_nil_r, with_buffer_same. reflexivity.
Qed.

Lemma length_grown (buf : Buffer.t) (p k : Z) :
  Buffer.length (grown buf p k) = Z.max (Buffer.length buf) (p + k).
Proof.
  unfold grown, Buffer.length. rewrite length_app, length_replicate. lia.
Qed.

(** X1. With an integral cursor [p], [expand(k)] never throws, never
    moves the cursor, keeps every byte where it was and leaves storage
    with [max(length, p + k)] bytes, the new ones being zero. *)
Theorem expand_preserves (b : ByteArray) (p k : Z) :
  position b = Int p ->
  exists buf,
    expand (Int k) b = (Ret tt, with_buffer buf b) /\
    Buffer.length buf = Z.max (Buffer.length (buffer b)) (p + k) /\
    take (List.length (buffer b)) buf = buffer b /\
    (forall j : nat, (List.length (buffer b) <= j < List.length buf)%nat ->
       buf !! j = Some Byte.x00).
Proof.
  intros Hp. exists (grown (buffer b) p k).
  split; [apply expand_run; assumption|].
  split; [apply length_grown|].
  unfold grown. split.
  - rewrite take_app_length. reflexivity.
  - intros j Hj. rewrite length_app, length_replicate in Hj.
    rewrite lookup_app_r by lia. apply lookup_replicate_2. lia.
Qed.

Lemma expand_preserves_witness :
  exists buf,
    expand (Int 4) (mkByteArray (Int 1) BIG_ENDIAN AMF3 [Byte.x0a; Byte.x0b])
    = (Ret tt, with_buffer buf (mkByteArray (Int 1) BIG_ENDIAN AMF3 [Byte.x0a; Byte.x0b])) /\
    Buffer.length buf = Z.max 2 (1 + 4) /\
    take 2 buf = [Byte.x0a; Byte.x0b] /\
    (forall j : nat, (2 <= j < List.length buf)%nat -> buf !! j = Some Byte.x00).
Proof.
  apply (expand_preserves (mkByteArray (Int 1) BIG_ENDIAN AMF3 [Byte.x0a; Byte.x0b]) 1 4).
  reflexivity.
Defined.

(** ** Fixed-width writes at any cursor *)

Lemma store_at_cursor (buf bytes : Buffer.t) (p : Z) :
  0 <= p ->
  Buffer.store (Some bytes) (Buffer.length bytes)
    (grown buf p (Buffer.length bytes)) (Int p)
  = Ret (Buffer.splice (grown buf p (Buffer.length bytes)) p bytes).
Proof.
  intros Hp. unfold Buffer.store. rewrite check_bounds_inside; [reflexivity|assumption|].
  rewrite length_grown. lia.
Qed.

Ltac unfold_writers :=
  unfold writeByte, writeDouble, writeFloat, writeInt, writeLong, writeShort,
    writeUnsignedByte, writeUnsignedInt, writeUnsignedShort, writeUnsignedLong.

Ltac unfold_accessors :=
  unfold Buffer.writeInt8, Buffer.writeUInt8, Buffer.writeInt16BE,
    Buffer.writeInt16LE, Buffer.writeUInt16BE, Buffer.writeUInt16LE,
    Buffer.writeUInt32BE, Buffer.writeUInt32LE, Buffer.writeBigInt64BE,
    Buffer.writeBigInt64LE, Buffer.writeBigUInt64BE, Buffer.writeBigUInt64LE,
    Buffer.writeFloatBE, Buffer.writeFloatLE, Buffer.writeDoubleBE,
    Buffer.writeDoubleLE, Buffer.writeFloat, Buffer.writeDouble,
    Buffer.writeInt, Buffer.writeBigInt;
  repeat match goal with
         | |- context [Z.of_nat ?n] =>
             let r := eval vm_compute in (Z.of_nat n) in
             change (Z.of_nat n) with r
         end.

(** A write that accepts its value, at an integral cursor [p >= 0]. *)
Lemma write_run (w : writer) (v : number) (b : ByteArray) (p : Z) (bytes : Buffer.t) :
  position b = Int p ->
  0 <= p ->
  payload w (endian b) v = Some bytes ->
  write w v b = (Ret tt, written_at b p bytes).
Proof.
  intros Hp Hp0 Hpay.
  pose proof (length_payload _ _ _ _ Hpay) as Hlen.
  pose proof (store_at_cursor (buffer b) bytes p Hp0) as Hstore.
  pose proof (expand_run b p (width w) Hp) as Hexp.
  unfold written_at. rewrite Hlen in *.
  destruct w; cbn [write width payload] in *.
  all: unfold_writers.
  all: unfold bind at 1; rewrite Hexp; cbv beta iota.
  all: unfold bigint_bytes, BigInt in *.
  all: try (destruct (Number.to_int v) as [z|]; [|discriminate Hpay]).
  all: unmethod; cbn [position endian buffer with_buffer objectEncoding].
  all: unfold_accessors.
  all: rewrite ?Hp.
  all: try (destruct (endian b) eqn:He; cbn [is_big] in Hpay).
  all: rewrite Hpay, Hstore.
  all: unfold with_position, with_buffer;
       cbn [position endian buffer objectEncoding];
       rewrite ?He, ?Hp; reflexivity.
Qed.

(** A write that rejects its value, at an integral cursor: [expand] has
    run, and the byte writers have incremented the cursor. *)
Lemma write_rejected_run (w : writer) (v : number) (b : ByteArray) (p : Z) :
  position b = Int p ->
  payload w (endian b) v = None ->
  write w v b
  = (Throw RangeError,
     with_position (Int (p + rejected_advance w))
       (with_buffer (grown (buffer b) p (width w)) b)).
Proof.
  intros Hp Hpay.
  pose proof (expand_run b p (width w) Hp) as Hexp.
  destruct w; cbn [write width payload rejected_advance] in *;
    try discriminate Hpay.
  all: unfold_writers.
  all: unfold bind at 1; rewrite Hexp; cbv beta iota.
  all: unfold bigint_bytes, BigInt in *.
  all: unmethod; cbn [position endian buffer with_buffer objectEncoding].
  all: unfold_accessors.
  all: rewrite ?Hp.
  all: try (destruct (endian b) eqn:He; cbn [is_big] in Hpay).
  all: try (destruct (Number.to_int v) as [z|]).
  all: unfold Buffer.store; rewrite ?Hpay.
  all: unfold with_position, with_buffer;
       cbn [position endian buffer objectEncoding Number.add];
       rewrite ?He, ?Hp, ?Z.add_0_r; reflexivity.
Qed.

Lemma length_splice (buf bytes : Buffer.t) (p : Z) :
  0 <= p ->
  p + Buffer.length bytes <= Buffer.length buf ->
  Buffer.length (Buffer.splice buf p bytes) = Buffer.length buf.
Proof.
  intros Hp Hfit. unfold Buffer.splice, Buffer.length in *.
  rewrite !length_app, length_take, length_drop. lia.
Qed.

Lemma window_splice (buf bytes : Buffer.t) (p : Z) :
  0 <= p ->
  p + Buffer.length bytes <= Buffer.length buf ->
  Buffer.window (Buffer.splice buf p bytes) p (Buffer.length bytes) = bytes.
Proof.
  intros Hp Hfit. unfold Buffer.window, Buffer.splice, Buffer.length in *.
  rewrite drop_app_length' by (rewrite length_take; lia).
  rewrite Nat2Z.id. apply take_app_length.
Qed.

Lemma lookup_splice_outside (buf bytes : Buffer.t) (p : Z) (j : nat) :
  0 <= p ->
  p + Buffer.length bytes <= Buffer.length buf ->
  ~ (p <= Z.of_nat j < p + Buffer.length bytes) ->
  Buffer.splice buf p bytes !! j = buf !! j.
Proof.
  intros Hp Hfit Hout. unfold Buffer.splice, Buffer.length in *.
  destruct (Z.lt_ge_cases (Z.of_nat j) p) as [Hlow|Hhigh].
  - rewrite lookup_app_l by (rewrite length_take; lia).
    apply lookup_take_lt. lia.
  - rewrite lookup_app_r by (rewrite length_take; lia).
    rewrite lookup_app_r by (rewrite length_take; lia).
    rewrite lookup_drop, length_take. f_equal. lia.
Qed.

Lemma lookup_grown_old (buf : Buffer.t) (p k : Z) (j : nat) :
  (j < List.length buf)%nat -> grown buf p k !! j = buf !! j.
Proof. intros Hj. unfold grown. apply lookup_app_l. assumption. Qed.

(** X2. At an integral cursor [p >= 0], a fixed-width write that accepts
    its value puts its [k] bytes at [p .. p + k), keeps every other byte
    storage had, leaves [max(length, p + k)] bytes and moves the cursor
    to [p + k]; byte order and object encoding stay. *)
Theorem write_at_cursor (w : writer) (v : number) (b : ByteArray)
    (p : Z) (bytes : Buffer.t) :
  position b = Int p ->
  0 <= p ->
  payload w (endian b) v = Some bytes ->
  exists buf,
    write w v b
    = (Ret tt, mkByteArray (Int (p + width w)) (endian b) (objectEncoding b) buf) /\
    Buffer.length buf = Z.max (Buffer.length (buffer b)) (p + width w) /\
    Buffer.window buf p (width w) = bytes /\
    (forall j : nat, (j < List.length (buffer b))%nat ->
       ~ (p <= Z.of_nat j < p + width w) ->
       buf !! j = buffer b !! j).
Proof.
  intros Hp Hp0 Hpay.
  pose proof (length_payload _ _ _ _ Hpay) as Hlen.
  pose proof (length_grown (buffer b) p (width w)) as Hgrown.
  eexists. split.
  - rewrite (write_run w v b p bytes Hp Hp0 Hpay). unfold written_at.
    rewrite Hlen. reflexivity.
  - split; [|split].
    + rewrite length_splice by lia. rewrite Hgrown. reflexivity.
    + rewrite <- Hlen in *. apply window_splice; lia.
    + intros j Hj Hout. rewrite <- Hlen in *.
      rewrite lookup_splice_outside by lia. apply lookup_grown_old. assumption.
Qed.

Lemma write_at_cursor_witness :
  exists buf,
    writeUnsignedShort (Int 513)
      (mkByteArray (Int 1) LITTLE_ENDIAN AMF3 [Byte.x0a; Byte.x0b; Byte.x0c; Byte.x0d])
    = (Ret tt, mkByteArray (Int (1 + 2)) LITTLE_ENDIAN AMF3 buf) /\
    Buffer.length buf = Z.max 4 (1 + 2) /\
    Buffer.window buf 1 2 = [Byte.x01; Byte.x02] /\
    (forall j : nat, (j < 4)%nat -> ~ (1 <= Z.of_nat j < 1 + 2) ->
       buf !! j = [Byte.x0a; Byte.x0b; Byte.x0c; Byte.x0d] !! j).
Proof.
  apply (write_at_cursor WUnsignedShort (Int 513)
           (mkByteArray (Int 1) LITTLE_ENDIAN AMF3 [Byte.x0a; Byte.x0b; Byte.x0c; Byte.x0d])
           1 [Byte.x01; Byte.x02]).
  - reflexivity.
  - lia.
  - reflexivity.
Defined.

(** X3. At an integral cursor, a write whose value is rejected throws a
    RangeError after [expand] has run: storage has grown to
    [max(length, p + k)] bytes all the same, and [writeUnsignedByte] has
    moved the cursor by one, the wider writers not at all. *)
Theorem write_rejected (w : writer) (v : number) (b : ByteArray) (p : Z) :
  position b = Int p ->
  payload w (endian b) v = None ->
  eval (write w v) b = Throw RangeError /\
  position (exec (write w v) b) = Int (p + rejected_advance w) /\
  buffer (exec (write w v) b) = grown (buffer b) p (width w) /\
  Buffer.length (buffer (exec (write w v) b))
  = Z.max (Buffer.length (buffer b)) (p + width w).
Proof.
  intros Hp Hpay. unfold eval, exec.
  rewrite (write_rejected_run w v b p Hp Hpay). cbn [fst snd position buffer with_position with_buffer].
  repeat split. apply length_grown.
Qed.

Lemma write_rejected_witness :
  eval (writeUnsignedShort (Int 65536)) empty = Throw RangeError /\
  position (exec (writeUnsignedShort (Int 65536)) empty) = Int (0 + 0) /\
  buffer (exec (writeUnsignedShort (Int 65536)) empty) = grown [] 0 2 /\
  Buffer.length (buffer (exec (writeUnsignedShort (Int 65536)) empty)) = Z.max 0 (0 + 2).
Proof.
  apply (write_rejected WUnsignedShort (Int 65536) empty 0).
  - reflexivity.
  - reflexivity.
Defined.

(** ** Two's complement *)

Lemma wrap_range (n z : Z) :
  1 <= n -> - 2 ^ (n - 1) <= wrap n z < 2 ^ (n - 1).
Proof.
  intros Hn. unfold wrap.
  assert (H2 : 2 ^ n = 2 * 2 ^ (n - 1)).
  { replace n with (Z.succ (n - 1)) at 1 by lia. apply Z.pow_succ_r. lia. }
  pose proof (Z.pow_pos_nonneg 2 (n - 1) ltac:(lia) ltac:(lia)) as Hpos.
  pose proof (Z.mod_pos_bound (z + 2 ^ (n - 1)) (2 ^ n) ltac:(lia)). lia.
Qed.

Lemma wrap_small (n z : Z) :
  1 <= n -> - 2 ^ (n - 1) <= z < 2 ^ (n - 1) -> wrap n z = z.
Proof.
  intros Hn Hz. unfold wrap.
  assert (H2 : 2 ^ n = 2 * 2 ^ (n - 1)).
  { replace n with (Z.succ (n - 1)) at 1 by lia. apply Z.pow_succ_r. lia. }
  rewrite Z.mod_small by lia. lia.
Qed.

Lemma wrap_mod (n z : Z) : 1 <= n -> wrap n z mod 2 ^ n = z mod 2 ^ n.
Proof.
  intros Hn. unfold wrap.
  pose proof (Z.pow_pos_nonneg 2 n ltac:(lia) ltac:(lia)) as Hpos.
  rewrite Zminus_mod, Z.mod_mod, <- Zminus_mod by lia.
  f_equal. lia.
Qed.

(** The low bits and the sign bit of [x], recombined as a signed value. *)
Lemma wrap_split (n x : Z) :
  1 <= n ->
  x mod 2 ^ (n - 1) - 2 ^ (n - 1) * ((x / 2 ^ (n - 1)) mod 2) = wrap n x.
Proof.
  intros Hn. unfold wrap.
  assert (H2 : 2 ^ n = 2 ^ (n - 1) * 2).
  { replace n with (Z.succ (n - 1)) at 1 by lia. rewrite Z.pow_succ_r by lia. lia. }
  pose proof (Z.pow_pos_nonneg 2 (n - 1) ltac:(lia) ltac:(lia)) as Hpos.
  set (h := 2 ^ (n - 1)) in *. rewrite H2.
  pose proof (Z.rem_mul_r x h 2 ltac:(lia) ltac:(lia)) as Hx.
  pose proof (Z.mod_pos_bound x h ltac:(lia)) as Hlow.
  pose proof (Z.mod_pos_bound (x / h) 2 ltac:(lia)) as Hbit.
  rewrite <- (Z.mod_add (x + h) (- (x / (h * 2))) (h * 2)) by lia.
  pose proof (Z.div_mod x (h * 2) ltac:(lia)) as Hdm.
  replace (x + h + - (x / (h * 2)) * (h * 2)) with (x mod (h * 2) + h) by lia.
  rewrite Hx.
  destruct (Z.eq_dec ((x / h) mod 2) 0) as [H0|H1].
  - rewrite H0. rewrite (Z.mod_small (x mod h + h * 0 + h)) by lia. lia.
  - assert (Hone : (x / h) mod 2 = 1) by lia. rewrite Hone.
    replace (x mod h + h * 1 + h) with (x mod h + 1 * (h * 2)) by lia.
    rewrite Z.mod_add by lia. rewrite (Z.mod_small (x mod h)) by lia. lia.
Qed.

Lemma wrap32_range (z : Z) : - 2 ^ 31 <= Number.wrap32 z < 2 ^ 31.
Proof.
  unfold Number.wrap32.
  pose proof (Z.mod_pos_bound (z + 2 ^ 31) (2 ^ 32) ltac:(lia)). lia.
Qed.

Lemma wrap32_small (z : Z) : - 2 ^ 31 <= z < 2 ^ 31 -> Number.wrap32 z = z.
Proof. intros Hz. unfold Number.wrap32. rewrite Z.mod_small by lia. lia. Qed.

Lemma ToInt32_range (v : number) : - 2 ^ 31 <= Number.ToInt32 v < 2 ^ 31.
Proof.
  unfold Number.ToInt32. destruct (Number.trunc v); [apply wrap32_range|lia].
Qed.

(** For a width from 1 to 31 the utility is the two's complement wrap of
    the 32-bit reading of its argument. *)
Lemma signedOverflow_below_32 (v : number) (n : Z) :
  1 <= n <= 31 ->
  signedOverflow v (Int n) = Int (wrap n (Number.ToInt32 v)).
Proof.
  intros Hn. unfold signedOverflow.
  pose proof (Z.pow_pos_nonneg 2 (n - 1) ltac:(lia) ltac:(lia)) as Hpos.
  assert (Hle : 2 ^ (n - 1) <= 2 ^ 30) by (apply Z.pow_le_mono_r; lia).
  assert (Hsign : Number.shl (Int 1) (Number.sub (Int n) (Int 1)) = Int (2 ^ (n - 1))).
  { unfold Number.shl. cbn [Number.sub Number.ToUint32 Number.ToInt32 Number.trunc].
    rewrite (wrap32_small 1) by lia.
    rewrite (Z.mod_small (n - 1)) by lia. rewrite (Z.mod_small (n - 1)) by lia.
    rewrite Z.shiftl_1_l. rewrite wrap32_small; [reflexivity|lia]. }
  rewrite Hsign. cbn [Number.sub]. unfold Number.band.
  cbn [Number.ToInt32 Number.trunc].
  rewrite !wrap32_small by lia.
  replace (2 ^ (n - 1) - 1) with (Z.ones (n - 1)) by (rewrite Z.ones_equiv; lia).
  rewrite Z.land_ones, land_pow2 by lia.
  cbn [Number.sub]. f_equal. apply wrap_split. lia.
Qed.

(** At width 32 the sign mask is negative and the utility gives the
    unsigned reading. *)
Lemma signedOverflow_at_32 (v : number) :
  signedOverflow v (Int 32) = Int (Number.ToInt32 v mod 2 ^ 32).
Proof.
  unfold signedOverflow.
  change (Number.shl (Int 1) (Number.sub (Int 32) (Int 1))) with (Int (- 2 ^ 31)).
  cbn [Number.sub]. unfold Number.band.
  change (Number.ToInt32 (Int (- 2 ^ 31 - 1))) with (Z.ones 31).
  change (Number.ToInt32 (Int (- 2 ^ 31))) with (Z.lnot (Z.ones 31)).
  pose proof (ToInt32_range v) as Hx. set (x := Number.ToInt32 v) in *.
  rewrite Z.land_ones by lia.
  change (Z.land x (Z.lnot (Z.ones 31))) with (Z.ldiff x (Z.ones 31)).
  rewrite Z.ldiff_ones_r by lia.
  rewrite Z.shiftr_div_pow2, Z.shiftl_mul_pow2 by lia.
  cbn [Number.sub]. f_equal.
  pose proof (Z.div_mod x (2 ^ 31) ltac:(lia)) as Hdm.
  pose proof (Z.mod_pos_bound x (2 ^ 31) ltac:(lia)) as Hlow.
  destruct (Z.lt_ge_cases x 0) as [Hneg|Hpos].
  - assert (Hq : x / 2 ^ 31 = -1)
      by (symmetry; apply (Z.div_unique x (2 ^ 31) (-1) (x + 2 ^ 31)); lia).
    rewrite Hq in *. apply Z.mod_unique with (q := -1); lia.
  - assert (Hq : x / 2 ^ 31 = 0) by (apply Z.div_small; lia).
    rewrite Hq in *. rewrite (Z.mod_small x (2 ^ 32)) by lia. lia.
Qed.

Lemma wrap32_mod (z n : Z) :
  0 <= n <= 32 -> Number.wrap32 z mod 2 ^ n = z mod 2 ^ n.
Proof.
  intros Hn. unfold Number.wrap32.
  pose proof (Z.pow_pos_nonneg 2 n ltac:(lia) ltac:(lia)) as Hpos.
  assert (H32 : 2 ^ 32 = 2 ^ (32 - n) * 2 ^ n)
    by (rewrite <- Z.pow_add_r by lia; f_equal; lia).
  pose proof (Z.div_mod (z + 2 ^ 31) (2 ^ 32) ltac:(lia)) as Hdm.
  set (q := (z + 2 ^ 31) / 2 ^ 32) in *.
  replace ((z + 2 ^ 31) mod 2 ^ 32 - 2 ^ 31) with (z + (- q) * 2 ^ 32) by lia.
  rewrite H32, Z.mul_assoc. apply Z.mod_add. lia.
Qed.

(** X4. For a width [n] from 1 to 31 and an integer [z],
    [signedOverflow(z, n)] is the one integer in
    [-2^(n-1), 2^(n-1)) congruent to [z] modulo [2^n]. *)
Theorem signedOverflow_wraps (z n : Z) :
  1 <= n <= 31 ->
  exists r,
    signedOverflow (Int z) (Int n) = Int r /\
    - 2 ^ (n - 1) <= r < 2 ^ (n - 1) /\
    r mod 2 ^ n = z mod 2 ^ n.
Proof.
  intros Hn. exists (wrap n (Number.ToInt32 (Int z))).
  split; [apply signedOverflow_below_32; assumption|].
  split; [apply wrap_range; lia|].
  rewrite wrap_mod by lia. cbn [Number.ToInt32 Number.trunc].
  apply wrap32_mod. lia.
Qed.

Lemma signedOverflow_wraps_witness :
  exists r,
    signedOverflow (Int 40000) (Int 16) = Int r /\
    - 2 ^ (16 - 1) <= r < 2 ^ (16 - 1) /\
    r mod 2 ^ 16 = 40000 mod 2 ^ 16.
Proof. apply (signedOverflow_wraps 40000 16). lia. Defined.

(** X5. At width 32 the utility returns the unsigned reading
    [z mod 2^32] of an integer [z]: a negative 32-bit value comes back
    increased by [2^32]. *)
Theorem signedOverflow_32_unsigned (z : Z) :
  signedOverflow (Int z) (Int 32) = Int (z mod 2 ^ 32).
Proof.
  rewrite signedOverflow_at_32. cbn [Number.ToInt32 Number.trunc].
  rewrite (wrap32_mod z 32) by lia. reflexivity.
Qed.

(** X6. For a width from 1 to 32 the utility is idempotent. *)
Theorem signedOverflow_idempotent (v : number) (n : Z) :
  1 <= n <= 32 ->
  signedOverflow (signedOverflow v (Int n)) (Int n) = signedOverflow v (Int n).
Proof.
  intros Hn. destruct (Z.eq_dec n 32) as [->|Hne].
  - rewrite !signedOverflow_at_32. cbn [Number.ToInt32 Number.trunc].
    rewrite (wrap32_mod _ 32) by lia. rewrite Z.mod_mod by lia. reflexivity.
  - rewrite !signedOverflow_below_32 by lia. cbn [Number.ToInt32 Number.trunc].
    f_equal.
    assert (Hle : 2 ^ (n - 1) <= 2 ^ 30) by (apply Z.pow_le_mono_r; lia).
    pose proof (wrap_range n (Number.ToInt32 v) ltac:(lia)) as Hr.
    rewrite wrap32_small by lia. apply wrap_small; [lia|assumption].
Qed.

Lemma signedOverflow_idempotent_witness :
  signedOverflow (signedOverflow (Int 200) (Int 8)) (Int 8) = signedOverflow (Int 200) (Int 8).
Proof. apply (signedOverflow_idempotent (Int 200) 8). lia. Defined.

(** ** Reading back what was written *)

Lemma Z_of_byte_of_Z (z : Z) : Z_of_byte (byte_of_Z z) = z mod 256.
Proof.
  unfold Z_of_byte, byte_of_Z.
  pose proof (Z.mod_pos_bound z 256 ltac:(lia)) as Hm.
  destruct (Byte.of_N (Z.to_N (z mod 256))) as [b|] eqn:Hb.
  - apply Byte.to_of_N in Hb. rewrite Hb. lia.
  - apply Byte.of_N_None_iff in Hb. lia.
Qed.

Lemma be_decode_snoc (l : Buffer.t) (b : byte) :
  Buffer.be_decode (l ++ [b]) = Buffer.be_decode l * 256 + Z_of_byte b.
Proof. unfold Buffer.be_decode. rewrite fold_left_app. reflexivity. Qed.

Lemma be_decode_le_encode (k : nat) (z : Z) :
  Buffer.be_decode (rev (Buffer.le_encode k z)) = z mod 256 ^ Z.of_nat k.
Proof.
  revert z. induction k as [|k IH]; intros z.
  - cbn. rewrite Z.mod_1_r. reflexivity.
  - cbn [Buffer.le_encode rev]. rewrite be_decode_snoc, IH, Z_of_byte_of_Z.
    rewrite Nat2Z.inj_succ, Z.pow_succ_r by lia.
    pose proof (Z.pow_pos_nonneg 256 (Z.of_nat k) ltac:(lia) ltac:(lia)).
    rewrite (Z.rem_mul_r z 256 (256 ^ Z.of_nat k)) by lia. lia.
Qed.

(** Decoding an encoding, in the same byte order, gives the value
    modulo [256^k]. *)
Lemma decode_encode (big : bool) (k : nat) (z : Z) :
  Buffer.decode big (Buffer.encode big k z) = z mod 256 ^ Z.of_nat k.
Proof.
  unfold Buffer.decode, Buffer.encode, Buffer.le_decode, Buffer.be_encode.
  destruct big; apply be_decode_le_encode.
Qed.

Lemma signed_mod (k z : Z) :
  1 <= k -> Buffer.signed k (z mod 2 ^ (8 * k)) = wrap (8 * k) z.
Proof.
  intros Hk. unfold Buffer.signed.
  assert (H2 : 2 ^ (8 * k) = 2 * 2 ^ (8 * k - 1)).
  { replace (8 * k) with (Z.succ (8 * k - 1)) at 1 by lia. apply Z.pow_succ_r. lia. }
  pose proof (Z.pow_pos_nonneg 2 (8 * k - 1) ltac:(lia) ltac:(lia)) as Hpos.
  pose proof (Z.mod_pos_bound z (2 ^ (8 * k)) ltac:(lia)) as Hm.
  pose proof (wrap_range (8 * k) z ltac:(lia)) as Hr.
  pose proof (wrap_mod (8 * k) z ltac:(lia)) as Hw.
  assert (Hcases : z mod 2 ^ (8 * k) = wrap (8 * k) z /\ 0 <= wrap (8 * k) z \/
                   z mod 2 ^ (8 * k) = wrap (8 * k) z + 2 ^ (8 * k) /\ wrap (8 * k) z < 0).
  { rewrite <- Hw.
    destruct (Z.lt_ge_cases (wrap (8 * k) z) 0) as [Hneg|Hnn].
    - right. split; [|assumption].
      rewrite <- (Z.mod_add _ 1) by lia. rewrite Z.mul_1_l. apply Z.mod_small. lia.
    - left. split; [|assumption]. apply Z.mod_small. lia. }
  destruct (Z.ltb_spec (z mod 2 ^ (8 * k)) (2 ^ (8 * k - 1))); lia.
Qed.

Ltac unfold_readers :=
  unfold readByte, readDouble, readFloat, readInt, readLong, readShort,
    readUnsignedByte, readUnsignedInt, readUnsignedShort, readUnsignedLong;
  unmethod;
  unfold Buffer.readInt8, Buffer.readUInt8, Buffer.readInt16BE, Buffer.readInt16LE,
    Buffer.readUInt16BE, Buffer.readUInt16LE, Buffer.readInt32BE, Buffer.readInt32LE,
    Buffer.readUInt32BE, Buffer.readUInt32LE, Buffer.readBigInt64BE,
    Buffer.readBigInt64LE, Buffer.readBigUInt64BE, Buffer.readBigUInt64LE,
    Buffer.readFloatBE, Buffer.readFloatLE, Buffer.readDoubleBE, Buffer.readDoubleLE,
    Buffer.readFloat, Buffer.readDouble, Buffer.as_number, Buffer.readInt,
    Buffer.readUInt.

(** A read that finds its bytes after an integral cursor [p >= 0]. *)
Lemma read_run (r : reader) (b : ByteArray) (p : Z) :
  position b = Int p ->
  0 <= p ->
  p + read_width r <= Buffer.length (buffer b) ->
  read r b
  = (Ret (decoded r (endian b) (Buffer.window (buffer b) p (read_width r))),
     with_position (Int (p + read_advance r)) b).
Proof.
  intros Hp H0 Hle.
  destruct r; cbn [read read_width read_advance decoded] in *;
    unfold_readers;
    rewrite Hp, check_bounds_inside by assumption;
    destruct (endian b); cbv beta iota; rewrite ?Hp; reflexivity.
Qed.

(** A read that does not find its bytes: the byte readers have
    incremented the cursor, the others have not touched it. *)
Lemma read_short_run (r : reader) (b : ByteArray) (p : Z) :
  position b = Int p ->
  Buffer.length (buffer b) - p < read_width r ->
  read r b
  = (Throw RangeError,
     with_position
       (Int (p + match r with RByte | RUnsignedByte => 1 | _ => 0 end)) b).
Proof.
  intros Hp Hlt.
  destruct r; cbn [read read_width] in *;
    unfold_readers;
    rewrite Hp, check_bounds_short by assumption;
    destruct (endian b); cbv beta iota; rewrite ?Hp; cbn [Number.add];
    rewrite ?Z.add_0_r; try reflexivity;
    destruct b; cbn in *; subst; reflexivity.
Qed.

Lemma read_width_reader_of (w : writer) : read_width (reader_of w) = width w.
Proof. destruct w; reflexivity. Qed.

(** Write, put the cursor back, read. *)
Lemma round_trip_run (w : writer) (v : number) (b : ByteArray) (p : Z) (bytes : Buffer.t) :
  position b = Int p ->
  0 <= p ->
  payload w (endian b) v = Some bytes ->
  (write w v >> setPosition (Int p) >> read (reader_of w)) b
  = (Ret (decoded (reader_of w) (endian b) bytes),
     with_position (Int (p + read_advance (reader_of w))) (written_at b p bytes)).
Proof.
  intros Hp Hp0 Hpay.
  pose proof (length_payload _ _ _ _ Hpay) as Hlen.
  pose proof (length_nonneg bytes) as Hn.
  unfold bind at 1. rewrite (write_run w v b p bytes Hp Hp0 Hpay).
  unfold bind at 1. unfold setPosition. cbn [Number.leb].
  destruct (Z.leb_spec 0 p) as [_|]; [|lia].
  unfold modify.
  rewrite (read_run (reader_of w) _ p); cbn [with_position position buffer endian written_at].
  - rewrite read_width_reader_of, <- Hlen.
    rewrite window_splice by (rewrite ?length_grown; lia).
    reflexivity.
  - reflexivity.
  - assumption.
  - rewrite read_width_reader_of, <- Hlen.
    rewrite length_splice by (rewrite ?length_grown; lia).
    rewrite length_grown. lia.
Qed.

Lemma mod_mod_pow2 (z n m : Z) :
  0 <= n <= m -> (z mod 2 ^ m) mod 2 ^ n = z mod 2 ^ n.
Proof.
  intros Hn.
  pose proof (Z.pow_pos_nonneg 2 n ltac:(lia) ltac:(lia)) as Hpos.
  pose proof (Z.pow_pos_nonneg 2 m ltac:(lia) ltac:(lia)) as Hposm.
  assert (Hm : 2 ^ m = 2 ^ (m - n) * 2 ^ n)
    by (rewrite <- Z.pow_add_r by lia; f_equal; lia).
  pose proof (Z.div_mod z (2 ^ m) ltac:(lia)) as Hdm.
  set (q := z / 2 ^ m) in *.
  replace (z mod 2 ^ m) with (z + (- q) * 2 ^ m) by lia.
  rewrite Hm, Z.mul_assoc. apply Z.mod_add. lia.
Qed.

Lemma wrap_wrap32 (n z : Z) : 1 <= n <= 32 -> wrap n (Number.wrap32 z) = wrap n z.
Proof.
  intros Hn. unfold wrap.
  pose proof (Z.pow_pos_nonneg 2 n ltac:(lia) ltac:(lia)) as Hpos.
  rewrite Zplus_mod, wrap32_mod, <- Zplus_mod by lia. reflexivity.
Qed.

(** An integer within the bounds of an integer writer is accepted, and
    its low bytes are the payload. *)
Lemma int_payload_accepts (big : bool) (k : nat) (min max r : Z) :
  min <= r <= max ->
  Buffer.int_payload big k min max (Int r)
  = Some (Buffer.encode big k (r mod 2 ^ 32)).
Proof.
  intros Hr. unfold Buffer.int_payload. cbn [Number.ltb].
  destruct (Z.ltb_spec max r); [lia|]. destruct (Z.ltb_spec r min); [lia|].
  reflexivity.
Qed.

Lemma decode_low_bytes (big : bool) (k : nat) (r : Z) :
  (k <= 4)%nat ->
  Buffer.decode big (Buffer.encode big k (r mod 2 ^ 32)) = r mod 2 ^ (8 * Z.of_nat k).
Proof.
  intros Hk. rewrite decode_encode.
  change 256 with (2 ^ 8). rewrite <- Z.pow_mul_r by lia.
  apply mod_mod_pow2. lia.
Qed.

(** X7. A signed byte or short written at an integral cursor [p >= 0]
    and read back from [p] is the two's complement wrap of the integer
    written, to 8 or 16 bits, in either byte order; an integer within
    the signed range comes back as it is. *)
Theorem signed_round_trip (z : Z) (b : ByteArray) (p : Z) :
  position b = Int p ->
  0 <= p ->
  eval (writeByte (Int z) >> setPosition (Int p) >> readByte) b = Ret (Int (wrap 8 z)) /\
  eval (writeShort (Int z) >> setPosition (Int p) >> readShort) b = Ret (Int (wrap 16 z)) /\
  (- 2 ^ 7 <= z < 2 ^ 7 -> wrap 8 z = z) /\
  (- 2 ^ 15 <= z < 2 ^ 15 -> wrap 16 z = z).
Proof.
  intros Hp Hp0. split; [|split; [|split]].
  - change (eval (writeByte (Int z) >> setPosition (Int p) >> readByte) b)
      with (fst ((write WByte (Int z) >> setPosition (Int p) >> read (reader_of WByte)) b)).
    rewrite (round_trip_run WByte (Int z) b p _ Hp Hp0 (payload_WByte _ _)).
    cbn [fst reader_of decoded Buffer.decode Buffer.be_decode fold_left].
    rewrite Z_of_byte_of_Z. cbn [Number.ToInt32 Number.trunc].
    rewrite Z.mul_0_l, Z.add_0_l.
    change 256 with (2 ^ (8 * 1)). rewrite signed_mod by lia.
    change (8 * 1) with 8. rewrite wrap_wrap32 by lia. reflexivity.
  - assert (Hpay : payload WShort (endian b) (Int z)
                   = Some (Buffer.encode (is_big (endian b)) 2 (wrap 16 z mod 2 ^ 32))).
    { cbn [payload]. rewrite signedOverflow_below_32 by lia.
      cbn [Number.ToInt32 Number.trunc]. rewrite wrap_wrap32 by lia.
      apply int_payload_accepts. pose proof (wrap_range 16 z ltac:(lia)). lia. }
    change (eval (writeShort (Int z) >> setPosition (Int p) >> readShort) b)
      with (fst ((write WShort (Int z) >> setPosition (Int p) >> read (reader_of WShort)) b)).
    rewrite (round_trip_run WShort (Int z) b p _ Hp Hp0 Hpay).
    cbn [fst reader_of decoded].
    rewrite decode_low_bytes by lia. change (8 * Z.of_nat 2) with (8 * 2).
    rewrite signed_mod by lia. change (8 * 2) with 16.
    rewrite wrap_small; [reflexivity|lia|apply wrap_range; lia].
  - intros Hz. apply wrap_small; [lia|exact Hz].
  - intros Hz. apply wrap_small; [lia|exact Hz].
Qed.

Lemma signed_round_trip_witness :
  eval (writeByte (Int 200) >> setPosition (Int 0) >> readByte) empty
  = Ret (Int (wrap 8 200)) /\
  eval (writeShort (Int 200) >> setPosition (Int 0) >> readShort) empty
  = Ret (Int (wrap 16 200)) /\
  (- 2 ^ 7 <= 200 < 2 ^ 7 -> wrap 8 200 = 200) /\
  (- 2 ^ 15 <= 200 < 2 ^ 15 -> wrap 16 200 = 200).
Proof.
  apply (signed_round_trip 200 empty 0).
  - reflexivity.
  - lia.
Defined.

Lemma bind_assoc {S A B C} (m : M S A) (f : A -> M S B) (g : B -> M S C) (s : S) :
  bind (bind m f) g s = bind m (fun x => bind (f x) g) s.
Proof. unfold bind. destruct (m s) as [[a|e] s']; reflexivity. Qed.

(** X8. An unsigned byte, short or int within its range, written at an
    integral cursor [p >= 0] and read back from [p] with the matching
    read, comes back as it is, in either byte order. *)
Theorem unsigned_round_trip (w : writer) (z : Z) (b : ByteArray) (p : Z) :
  w = WUnsignedByte \/ w = WUnsignedShort \/ w = WUnsignedInt ->
  0 <= z < 2 ^ (8 * width w) ->
  position b = Int p ->
  0 <= p ->
  eval (write w (Int z) >> setPosition (Int p) >> read (reader_of w)) b = Ret (Int z).
Proof.
  intros Hw Hz Hp Hp0. unfold eval.
  destruct Hw as [-> | [-> | ->]]; cbn [width] in Hz.
  - erewrite round_trip_run; [|eassumption|assumption|].
    2: { cbn [payload]. apply int_payload_accepts. lia. }
    cbn [fst reader_of decoded]. rewrite (decode_low_bytes true 1) by lia.
    change (8 * Z.of_nat 1) with (8 * 1). rewrite Z.mod_small by lia. reflexivity.
  - erewrite round_trip_run; [|eassumption|assumption|].
    2: { cbn [payload]. apply int_payload_accepts. lia. }
    cbn [fst reader_of decoded]. rewrite decode_low_bytes by lia.
    change (8 * Z.of_nat 2) with (8 * 2). rewrite Z.mod_small by lia. reflexivity.
  - erewrite round_trip_run; [|eassumption|assumption|].
    2: { cbn [payload]. apply int_payload_accepts. lia. }
    cbn [fst reader_of decoded]. rewrite decode_low_bytes by lia.
    change (8 * Z.of_nat 4) with (8 * 4). rewrite Z.mod_small by lia. reflexivity.
Qed.

Lemma unsigned_round_trip_witness :
  eval (write WUnsignedInt (Int 4000000000) >> setPosition (Int 1)
        >> read (reader_of WUnsignedInt))
    (mkByteArray (Int 1) LITTLE_ENDIAN AMF3 [Byte.x01])
  = Ret (Int 4000000000).
Proof.
  apply (unsigned_round_trip WUnsignedInt 4000000000
           (mkByteArray (Int 1) LITTLE_ENDIAN AMF3 [Byte.x01]) 1).
  - right. right. reflexivity.
  - cbn [width]. lia.
  - reflexivity.
  - lia.
Defined.

(** X9. A 64-bit integer within its range, written with [writeLong] or
    [writeUnsignedLong] at an integral cursor [p >= 0] and read back
    from [p], comes back as [Number] makes it from the BigInt; after
    [readLong] the cursor is at [p + 4], after [readUnsignedLong] at
    [p + 8]. *)
Theorem long_round_trip (w : writer) (z : Z) (b : ByteArray) (p : Z) :
  w = WLong /\ - 2 ^ 63 <= z < 2 ^ 63 \/ w = WUnsignedLong /\ 0 <= z < 2 ^ 64 ->
  position b = Int p ->
  0 <= p ->
  eval (write w (Int z) >> setPosition (Int p) >> read (reader_of w)) b
  = Ret (Number_of_BigInt z) /\
  position (exec (write w (Int z) >> setPosition (Int p) >> read (reader_of w)) b)
  = Int (p + if w is WLong then 4 else 8).
Proof.
  intros Hw Hp Hp0. unfold eval, exec.
  assert (Hpay : payload w (endian b) (Int z)
                 = Some (Buffer.encode (is_big (endian b)) 8 (z mod 2 ^ 64))).
  { destruct Hw as [[-> Hz] | [-> Hz]]; cbn [payload]; unfold bigint_bytes;
      cbn [Number.to_int]; unfold Buffer.bigint_payload.
    - destruct (Z.ltb_spec (2 ^ 63 - 1) z); [lia|].
      destruct (Z.ltb_spec z (- 2 ^ 63)); [lia|]. reflexivity.
    - destruct (Z.ltb_spec (2 ^ 64 - 1) z); [lia|].
      destruct (Z.ltb_spec z 0); [lia|]. reflexivity. }
  rewrite (round_trip_run w (Int z) b p _ Hp Hp0 Hpay). cbn [fst snd position with_position].
  destruct Hw as [[-> Hz] | [-> Hz]]; cbn [reader_of decoded read_advance read_width];
    rewrite decode_encode; change (256 ^ Z.of_nat 8) with (2 ^ 64);
    rewrite Z.mod_mod by lia; split; try reflexivity.
  - change (2 ^ 64) with (2 ^ (8 * 8)). rewrite signed_mod by lia.
    rewrite wrap_small; [reflexivity|lia|]. change (8 * 8 - 1) with 63. assumption.
  - rewrite Z.mod_small by lia. reflexivity.
Qed.

Lemma long_round_trip_witness :
  eval (write WLong (Int (-3)) >> setPosition (Int 0) >> read (reader_of WLong)) empty
  = Ret (Number_of_BigInt (-3)) /\
  position (exec (write WLong (Int (-3)) >> setPosition (Int 0) >> read (reader_of WLong)) empty)
  = Int (0 + if WLong is WLong then 4 else 8).
Proof.
  apply (long_round_trip WLong (-3) empty 0).
  - left. split; [reflexivity|lia].
  - reflexivity.
  - lia.
Defined.

(** Within 53 bits the number is the integer itself; beyond, it is
    the nearest binary64 value. *)
Lemma Number_of_BigInt_examples :
  Number_of_BigInt (-3) = Int (-3) /\
  Number_of_BigInt (2 ^ 53 + 1) = Int (2 ^ 53).
Proof. split; vm_compute; reflexivity. Qed.

(** X10. A boolean written at an integral cursor [p >= 0] and read back
    from [p] comes back as it is. *)
Theorem boolean_round_trip (x : bool) (b : ByteArray) (p : Z) :
  position b = Int p ->
  0 <= p ->
  eval (writeBoolean x >> setPosition (Int p) >> readBoolean) b = Ret x.
Proof.
  intros Hp Hp0. unfold eval, writeBoolean, readBoolean.
  change (writeByte (if x then Int 1 else Int 0)) with (write WByte (if x then Int 1 else Int 0)).
  change readByte with (read (reader_of WByte)).
  rewrite <- !bind_assoc.
  unfold bind at 1.
  rewrite (bind_assoc (write WByte _)).
  rewrite (round_trip_run WByte _ b p _ Hp Hp0 (payload_WByte _ _)).
  destruct x; reflexivity.
Qed.

Lemma boolean_round_trip_witness :
  eval (writeBoolean true >> setPosition (Int 0) >> readBoolean) empty = Ret true.
Proof.
  apply (boolean_round_trip true empty 0).
  - reflexivity.
  - lia.
Defined.

(** ** Sequences of writes *)

Lemma at_end_written (b : ByteArray) (bytes : Buffer.t) :
  at_end (written_at b (Buffer.length (buffer b)) bytes) /\
  Buffer.length (buffer (written_at b (Buffer.length (buffer b)) bytes))
  = Buffer.length (buffer b) + Buffer.length bytes.
Proof.
  pose proof (length_nonneg (buffer b)). pose proof (length_nonneg bytes).
  assert (Hlen : Buffer.length (buffer (written_at b (Buffer.length (buffer b)) bytes))
                 = Buffer.length (buffer b) + Buffer.length bytes).
  { unfold written_at. cbn [buffer].
    rewrite length_splice by (rewrite ?length_grown; lia).
    rewrite length_grown. lia. }
  split; [|exact Hlen].
  unfold at_end. rewrite Hlen. reflexivity.
Qed.

(** X11. Starting with the cursor at the end of storage, a sequence of
    fixed-width writes that all succeed leaves the cursor at the end,
    and storage longer by exactly the sum of the widths: from an empty
    instance, the length is the number of bytes written. *)
Theorem write_all_length (ws : list (writer * number)) (b : ByteArray) :
  at_end b ->
  eval (write_all ws) b = Ret tt ->
  at_end (exec (write_all ws) b) /\
  Buffer.length (buffer (exec (write_all ws) b))
  = Buffer.length (buffer b) + total_width ws.
Proof.
  revert b. induction ws as [|[w v] rest IH]; intros b Hend Hok.
  - cbn. split; [assumption|lia].
  - cbn [write_all total_width fold_right fst] in *.
    unfold eval, exec in *.
    destruct (payload w (endian b) v) as [bytes|] eqn:Hpay.
    + pose proof (length_payload _ _ _ _ Hpay) as Hlen.
      pose proof (write_run w v b _ bytes Hend (length_nonneg _) Hpay) as Hrun.
      unfold bind in *. rewrite Hrun in *.
      destruct (at_end_written b bytes) as [Hend' Hlen'].
      destruct (IH _ Hend' Hok) as [IHend IHlen].
      split; [exact IHend|].
      rewrite IHlen, Hlen', Hlen.
      fold (total_width rest). lia.
    + pose proof (write_rejected_run w v b _ Hend Hpay) as Hrun.
      unfold bind in Hok. rewrite Hrun in Hok. discriminate Hok.
Qed.

Lemma write_all_length_witness :
  let ws := [(WUnsignedByte, Int 100); (WShort, Int (-2)); (WUnsignedInt, Int 7)] in
  at_end (exec (write_all ws) empty) /\
  Buffer.length (buffer (exec (write_all ws) empty))
  = Buffer.length (buffer empty) + total_width ws.
Proof.
  cbv zeta.
  apply (write_all_length
           [(WUnsignedByte, Int 100); (WShort, Int (-2)); (WUnsignedInt, Int 7)] empty).
  - reflexivity.
  - reflexivity.
Defined.

(** ** Reads that fail, and what reads leave alone *)

(** X12. With an integral cursor, a fixed-width read that does not find
    its bytes throws a RangeError; [readByte] and [readUnsignedByte]
    have moved the cursor by one all the same, the wider reads leave it
    where it was. *)
Theorem read_past_end (r : reader) (b : ByteArray) (p : Z) :
  position b = Int p ->
  Buffer.length (buffer b) - p < read_width r ->
  read r b = (Throw RangeError, with_position (Int (p + failed_read_advance r)) b).
Proof.
  intros Hp Hlt. rewrite (read_short_run r b p Hp Hlt).
  destruct r; reflexivity.
Qed.

Lemma read_past_end_witness :
  readByte empty = (Throw RangeError, with_position (Int (0 + 1)) empty).
Proof.
  apply (read_past_end RByte empty 0).
  - reflexivity.
  - vm_compute. reflexivity.
Defined.

(** X13. No fixed-width read, successful or not, at any cursor, changes
    storage, the byte order or the object encoding. *)
Theorem read_keeps_storage (r : reader) (b : ByteArray) :
  buffer (exec (read r) b) = buffer b /\
  endian (exec (read r) b) = endian b /\
  objectEncoding (exec (read r) b) = objectEncoding b.
Proof.
  destruct r; cbn [read]; unfold_readers;
    destruct (endian b) eqn:He;
    destruct (Buffer.check_bounds _ _ _); cbn; rewrite ?He; repeat split.
Qed.

(** ** Setters *)

(** X14. A setter that throws leaves the instance as it was. *)
Theorem failed_setter_changes_nothing (b : ByteArray) (e : error) :
  (forall v, eval (setPosition v) b = Throw e -> exec (setPosition v) b = b) /\
  (forall s, eval (setEndian s) b = Throw e -> exec (setEndian s) b = b) /\
  (forall v, eval (setObjectEncoding v) b = Throw e -> exec (setObjectEncoding v) b = b) /\
  (forall v, eval (setLength v) b = Throw e -> exec (setLength v) b = b).
Proof.
  repeat split; intros x.
  - unfold setPosition. destruct (Number.leb _ _); cbn; [discriminate|reflexivity].
  - unfold setEndian. repeat destruct (String.eqb _ _); cbn; (discriminate || reflexivity).
  - unfold setObjectEncoding. repeat destruct (Number.eqb _ _); cbn; (discriminate || reflexivity).
  - unfold setLength, expand. unmethod.
    destruct (_ || _); [reflexivity|].
    destruct (Number.eqb x (Int 0)); [discriminate|].
    destruct (negb _); [|discriminate].
    destruct (Number.ltb x _); [discriminate|].
    destruct (Number.ltb _ x); [|discriminate].
    destruct (Buffer.alloc _); cbn; [discriminate|reflexivity].
Qed.

Lemma failed_setter_changes_nothing_witness :
  exec (setLength (Int (-1))) empty = empty.
Proof.
  apply (proj2 (proj2 (proj2 (failed_setter_changes_nothing empty TypeError)))).
  reflexivity.
Defined.

(** ** Strings *)

Lemma byteLength_nonneg (s : Buffer.jsstring) : 0 <= Buffer.byteLength s.
Proof.
  assert (H : forall (n : nat) (s : Buffer.jsstring),
             (List.length s <= n)%nat -> 0 <= Buffer.byteLength s).
  { clear s. induction n as [|n IH]; intros s Hn.
    - destruct s; [cbn; lia|cbn in Hn; lia].
    - destruct s as [|c rest]; [cbn; lia|].
      cbn [Buffer.byteLength]. cbn [List.length] in Hn.
      pose proof (IH rest ltac:(lia)) as Hrest.
      destruct (c <? 128); [lia|]. destruct (c <? 2048); [lia|].
      destruct rest as [|d rest']; [lia|].
      cbn [List.length] in Hn. pose proof (IH rest' ltac:(lia)) as Hrest'.
      destruct (_ && _); lia. }
  apply (H (List.length s)). lia.
Qed.

(** A slice between two integers in order is a window of storage. *)
Lemma slice_window (buf : Buffer.t) (p n : Z) :
  0 <= p -> 0 <= n ->
  Buffer.slice buf (Int p) (Int (p + n)) = Buffer.window buf p n.
Proof.
  intros Hp Hn. pose proof (length_nonneg buf) as Hlen.
  unfold Buffer.slice, Buffer.adjustOffset, Buffer.window. cbn [Number.trunc].
  assert (Hs : (if p =? 0 then 0 else if p <? 0 then Z.max 0 (p + Buffer.length buf)
                else Z.min p (Buffer.length buf)) = Z.min p (Buffer.length buf)).
  { destruct (Z.eqb_spec p 0); [lia|]. destruct (Z.ltb_spec p 0); lia. }
  assert (He : (if p + n =? 0 then 0
                else if p + n <? 0 then Z.max 0 (p + n + Buffer.length buf)
                else Z.min (p + n) (Buffer.length buf))
               = Z.min (p + n) (Buffer.length buf)).
  { destruct (Z.eqb_spec (p + n) 0); [lia|]. destruct (Z.ltb_spec (p + n) 0); lia. }
  rewrite Hs, He. unfold Buffer.length in *.
  destruct (Z.ltb_spec (Z.min p (Z.of_nat (List.length buf)))
              (Z.min (p + n) (Z.of_nat (List.length buf)))) as [Hlt|Hge].
  - replace (Z.to_nat (Z.min p (Z.of_nat (List.length buf)))) with (Z.to_nat p) by lia.
    destruct (Z.le_gt_cases (p + n) (Z.of_nat (List.length buf))).
    + f_equal. lia.
    + rewrite !take_ge by (rewrite length_drop; lia). reflexivity.
  - cbn [Z.to_nat take].
    destruct (Z.le_gt_cases (Z.of_nat (List.length buf)) p).
    + rewrite (drop_ge buf (Z.to_nat p)) by lia. destruct (Z.to_nat n); reflexivity.
    + replace n with 0 by lia. reflexivity.
Qed.

Section StringProperties.

Variable encodingExists : string -> bool.
Variable encode : Buffer.jsstring -> string -> Buffer.t.
Variable decode : Buffer.t -> string -> option bool -> Buffer.jsstring.

(** X15. With the cursor at the end of storage and a known charset,
    [writeMultiByte] leaves the cursor at the end exactly when the
    encoded text is as long as the UTF-8 length of the string. *)
Theorem writeMultiByte_at_end (s : Buffer.jsstring) (charset : string) (b : ByteArray) :
  at_end b ->
  encodingExists charset = true ->
  at_end (exec (writeMultiByte encodingExists encode s charset) b)
  <-> Buffer.length (encode s charset) = Buffer.byteLength s.
Proof.
  intros Hend Hex. unfold at_end in *. unfold writeMultiByte, exec. unmethod.
  rewrite Hex, Hend.
  cbn [snd position buffer with_buffer with_position Number.add Buffer.concat].
  unfold Buffer.length. rewrite length_app.
  split; [intros [= H]|intros H; f_equal]; unfold Buffer.length in *; lia.
Qed.

(** X16. [readMultiByte] never changes storage and always moves the
    cursor by the length asked for: also when the charset is unknown,
    and when the text found does not have that length. *)
Theorem readMultiByte_always_advances (length : number) (charset : string) (b : ByteArray) :
  exec (readMultiByte encodingExists decode length charset) b
  = with_position (Number.add (position b) length) b.
Proof.
  unfold readMultiByte, exec. unmethod.
  destruct (encodingExists charset); [|reflexivity].
  cbn [position buffer with_position].
  destruct (negb _); reflexivity.
Qed.

(** [readMultiByte] for a known charset at an integral cursor: the text
    decoded from the bytes found is returned if its UTF-8 length is the
    length asked for, less 3 when a mark is stripped. *)
Lemma readMultiByte_run (n : Z) (charset : string) (b : ByteArray) (p : Z) :
  let found := Buffer.window (buffer b) p n in
  let stripBOM := (String.eqb charset "utf8" || String.eqb charset "utf-8") && has_BOM found in
  let text := decode found charset (Some stripBOM) in
  position b = Int p ->
  0 <= p ->
  0 <= n ->
  encodingExists charset = true ->
  readMultiByte encodingExists decode (Int n) charset b
  = (if Buffer.byteLength text =? n - (if stripBOM then 3 else 0)
     then Ret text else Throw RangeError,
     with_position (Int (p + n)) b).
Proof.
  intros found stripBOM text Hp Hp0 Hn Hex.
  unfold readMultiByte. unmethod. rewrite Hex.
  cbn [position buffer with_position]. rewrite Hp. cbn [Number.add].
  rewrite slice_window by lia.
  fold found. fold stripBOM. fold text.
  destruct stripBOM; cbn [Number.sub Number.eqb]; rewrite ?Z.sub_0_r;
    destruct (_ =? _); reflexivity.
Qed.

(** X17. For a known charset whose decoder turns the bytes found into a
    text of as many UTF-8 bytes (less the mark it strips), with an
    integral cursor [p] inside storage: [readMultiByte(n)] returns the
    decoded text of the [n] bytes at [p] when they are there, and throws
    a RangeError when fewer are left; the cursor ends at [p + n]. *)
Theorem readMultiByte_checks_length (n : Z) (charset : string) (b : ByteArray) (p : Z) :
  let found := Buffer.window (buffer b) p n in
  let stripBOM := (String.eqb charset "utf8" || String.eqb charset "utf-8") && has_BOM found in
  let text := decode found charset (Some stripBOM) in
  position b = Int p ->
  0 <= p <= Buffer.length (buffer b) ->
  0 <= n ->
  encodingExists charset = true ->
  Buffer.byteLength text = Buffer.length found - (if stripBOM then 3 else 0) ->
  readMultiByte encodingExists decode (Int n) charset b
  = (if n <=? Buffer.length (buffer b) - p then Ret text else Throw RangeError,
     with_position (Int (p + n)) b).
Proof.
  intros found stripBOM text Hp Hin Hn Hex Hdec.
  rewrite (readMultiByte_run n charset b p Hp ltac:(lia) Hn Hex).
  fold found. fold stripBOM. fold text. rewrite Hdec.
  assert (Hfound : Buffer.length found = Z.min n (Buffer.length (buffer b) - p)).
  { unfold found, Buffer.window, Buffer.length in *.
    rewrite length_take, length_drop. lia. }
  rewrite Hfound.
  destruct (Z.leb_spec n (Buffer.length (buffer b) - p));
    match goal with
    | |- context [?x =? ?y] => destruct (Z.eqb_spec x y); try lia
    end; reflexivity.
Qed.

End StringProperties.

Lemma writeMultiByte_at_end_witness :
  at_end (exec (writeMultiByte ascii_exists ascii_encode [104; 105] "utf8") empty)
  <-> Buffer.length (ascii_encode [104; 105] "utf8") = Buffer.byteLength [104; 105].
Proof.
  apply (writeMultiByte_at_end ascii_exists ascii_encode [104; 105] "utf8" empty).
  - reflexivity.
  - reflexivity.
Defined.

Lemma readMultiByte_checks_length_witness :
  readMultiByte ascii_exists ascii_decode (Int 2) "utf8"
    (mkByteArray (Int 1) BIG_ENDIAN AMF3 [Byte.x01; Byte.x68; Byte.x69])
  = (Ret [104; 105], mkByteArray (Int 3) BIG_ENDIAN AMF3 [Byte.x01; Byte.x68; Byte.x69]).
Proof.
  apply (readMultiByte_checks_length ascii_exists ascii_decode 2 "utf8"
           (mkByteArray (Int 1) BIG_ENDIAN AMF3 [Byte.x01; Byte.x68; Byte.x69]) 1).
  - reflexivity.
  - vm_compute. split; discriminate.
  - lia.
  - reflexivity.
  - reflexivity.
Defined.

Lemma splice_at_end (buf bytes : Buffer.t) :
  Buffer.splice (grown buf (Buffer.length buf) (Buffer.length bytes)) (Buffer.length buf) bytes
  = buf ++ bytes.
Proof.
  unfold Buffer.splice, grown, Buffer.length.
  replace (Z.to_nat (Z.of_nat (List.length buf) + Z.of_nat (List.length bytes)
                     - Z.of_nat (List.length buf))) with (List.length bytes) by lia.
  rewrite Nat2Z.id, take_app_length.
  rewrite drop_ge by (rewrite length_app, length_replicate; lia).
  rewrite app_nil_r. reflexivity.
Qed.

Lemma window_app_middle (a bytes c : Buffer.t) :
  Buffer.window (a ++ bytes ++ c) (Buffer.length a) (Buffer.length bytes) = bytes.
Proof.
  unfold Buffer.window, Buffer.length. rewrite !Nat2Z.id.
  rewrite drop_app_length. apply take_app_length.
Qed.

Section UTF.

Variable encodingExists : string -> bool.
Variable encode : Buffer.jsstring -> string -> Buffer.t.
Variable decode : Buffer.t -> string -> option bool -> Buffer.jsstring.

(** [writeUTF] with the cursor at the end of storage, for a string of at
    most 65535 UTF-8 bytes. *)
Lemma writeUTF_run (s : Buffer.jsstring) (b : ByteArray) :
  at_end b ->
  encodingExists "utf8" = true ->
  Buffer.byteLength s <= 65535 ->
  writeUTF encodingExists encode s b
  = (Ret tt,
     mkByteArray
       (Int (Buffer.length (buffer b) + 2 + Buffer.byteLength s))
       (endian b) (objectEncoding b)
       (buffer b ++ Buffer.encode (is_big (endian b)) 2 (Buffer.byteLength s)
          ++ encode s "utf8")).
Proof.
  intros Hend Hex Hmax. pose proof (byteLength_nonneg s) as Hnn.
  assert (Hpay : payload WUnsignedShort (endian b) (Int (Buffer.byteLength s))
                 = Some (Buffer.encode (is_big (endian b)) 2 (Buffer.byteLength s))).
  { cbn [payload]. rewrite int_payload_accepts by lia.
    rewrite Z.mod_small by lia. reflexivity. }
  unfold writeUTF. unfold bind at 1.
  change (writeUnsignedShort (Int (Buffer.byteLength s)))
    with (write WUnsignedShort (Int (Buffer.byteLength s))).
  rewrite (write_run _ _ b _ _ Hend (length_nonneg _) Hpay).
  unfold written_at. rewrite splice_at_end, length_encode.
  unfold writeMultiByte. unmethod. rewrite Hex.
  cbn [position buffer endian objectEncoding with_position with_buffer Number.add
         Buffer.concat].
  unfold Buffer.concat. rewrite <- app_assoc. reflexivity.
Qed.

(** X18. With the cursor at the end of storage, a string of at most
    65535 UTF-8 bytes whose UTF-8 encoding by the collaborator has that
    length, starts with no byte-order mark and decodes back to the
    string: [writeUTF], the cursor put back, then [readUTF] return the
    string, and the cursor is at the end again. *)
Theorem UTF_round_trip (s : Buffer.jsstring) (b : ByteArray) :
  at_end b ->
  encodingExists "utf8" = true ->
  Buffer.byteLength s <= 65535 ->
  Buffer.length (encode s "utf8") = Buffer.byteLength s ->
  has_BOM (encode s "utf8") = false ->
  decode (encode s "utf8") "utf8" (Some false) = s ->
  eval (writeUTF encodingExists encode s >>
        setPosition (Int (Buffer.length (buffer b))) >>
        readUTF encodingExists decode) b = Ret s /\
  at_end (exec (writeUTF encodingExists encode s >>
                setPosition (Int (Buffer.length (buffer b))) >>
                readUTF encodingExists decode) b).
Proof.
  intros Hend Hex Hmax Hlen Hbom Hdec.
  pose proof (byteLength_nonneg s) as Hnn. pose proof (length_nonneg (buffer b)) as Hb.
  set (pre := Buffer.encode (is_big (endian b)) 2 (Buffer.byteLength s)).
  assert (Hpre : Buffer.length pre = 2) by apply (length_encode _ 2).
  set (stored := buffer b ++ pre ++ encode s "utf8").
  assert (Hstored : Buffer.length stored
                    = Buffer.length (buffer b) + 2 + Buffer.byteLength s).
  { unfold stored, Buffer.length in *. rewrite !length_app. lia. }
  assert (Hprefix : Buffer.window stored (Buffer.length (buffer b)) 2 = pre).
  { unfold stored. rewrite <- Hpre. apply window_app_middle. }
  assert (Hfound : Buffer.window stored (Buffer.length (buffer b) + 2) (Buffer.byteLength s)
                   = encode s "utf8").
  { unfold stored. rewrite app_assoc, <- Hlen.
    replace (Buffer.length (buffer b) + 2) with (Buffer.length (buffer b ++ pre))
      by (unfold Buffer.length in *; rewrite length_app; lia).
    rewrite <- (app_nil_r (encode s "utf8")) at 1. apply window_app_middle. }
  assert (Hrun : (writeUTF encodingExists encode s >>
                  setPosition (Int (Buffer.length (buffer b))) >>
                  readUTF encodingExists decode) b
                 = (Ret s,
                    mkByteArray (Int (Buffer.length (buffer b) + 2 + Buffer.byteLength s))
                      (endian b) (objectEncoding b) stored)).
  { unfold bind at 1. rewrite (writeUTF_run s b Hend Hex Hmax). fold pre. fold stored.
    unfold bind at 1. unfold setPosition. cbn [Number.leb].
    destruct (Z.leb_spec 0 (Buffer.length (buffer b))) as [_|]; [|lia].
    unfold modify, with_position. cbn [position endian objectEncoding buffer].
    unfold readUTF. unfold bind at 1.
    change readUnsignedShort with (read RUnsignedShort).
    rewrite (read_run RUnsignedShort _ (Buffer.length (buffer b)));
      cbn [position buffer endian read_width]; [|reflexivity|lia|lia].
    cbn [read_advance read_width decoded with_position position buffer endian objectEncoding].
    rewrite Hprefix. unfold pre at 1. rewrite decode_encode.
    change (256 ^ Z.of_nat 2) with 65536. rewrite Z.mod_small by lia.
    erewrite (readMultiByte_run encodingExists decode (Buffer.byteLength s) "utf8" _
                (Buffer.length (buffer b) + 2)); [|reflexivity|lia|lia|exact Hex].
    cbn [buffer with_position]. rewrite Hfound, Hbom, andb_false_r, Hdec, Z.sub_0_r, Z.eqb_refl.
    reflexivity. }
  unfold eval, exec. rewrite Hrun. cbn [fst snd].
  split; [reflexivity|]. unfold at_end. cbn [position buffer]. rewrite Hstored. reflexivity.
Qed.

(** X19. With an integral cursor [p], [writeUTF] of a string of more
    than 65535 UTF-8 bytes throws a RangeError from the length prefix:
    nothing of the string is stored and the cursor stays, but storage
    has been extended to hold the two bytes of the prefix. *)
Theorem writeUTF_too_long (s : Buffer.jsstring) (b : ByteArray) (p : Z) :
  position b = Int p ->
  65535 < Buffer.byteLength s ->
  writeUTF encodingExists encode s b
  = (Throw RangeError, with_buffer (grown (buffer b) p 2) b).
Proof.
  intros Hp Hlong.
  assert (Hpay : payload WUnsignedShort (endian b) (Int (Buffer.byteLength s)) = None).
  { cbn [payload]. unfold Buffer.int_payload. cbn [Number.ltb].
    destruct (Z.ltb_spec (2 ^ 16 - 1) (Buffer.byteLength s)); [reflexivity|lia]. }
  unfold writeUTF. unfold bind at 1.
  change (writeUnsignedShort (Int (Buffer.byteLength s)))
    with (write WUnsignedShort (Int (Buffer.byteLength s))).
  rewrite (write_rejected_run _ _ b p Hp Hpay). cbn [rejected_advance width].
  rewrite Z.add_0_r. unfold with_position, with_buffer.
  cbn [position endian objectEncoding buffer]. rewrite <- Hp.
  destruct b; reflexivity.
Qed.

End UTF.

Lemma UTF_round_trip_witness :
  eval (writeUTF ascii_exists ascii_encode [104; 105] >>
        setPosition (Int (Buffer.length (buffer empty))) >>
        readUTF ascii_exists ascii_decode) empty = Ret [104; 105] /\
  at_end (exec (writeUTF ascii_exists ascii_encode [104; 105] >>
                setPosition (Int (Buffer.length (buffer empty))) >>
                readUTF ascii_exists ascii_decode) empty).
Proof.
  apply (UTF_round_trip ascii_exists ascii_encode ascii_decode [104; 105] empty).
  - reflexivity.
  - reflexivity.
  - vm_compute. discriminate.
  - reflexivity.
  - reflexivity.
  - reflexivity.
Defined.

Lemma writeUTF_too_long_witness :
  writeUTF ascii_exists ascii_encode (replicate (Z.to_nat 65536) 97) empty
  = (Throw RangeError, with_buffer (grown (buffer empty) 0 2) empty).
Proof.
  apply (writeUTF_too_long ascii_exists ascii_encode (replicate (Z.to_nat 65536) 97) empty 0).
  - reflexivity.
  - vm_compute. reflexivity.
Defined.

(** ** Bulk writes *)

(** The copy loop stores [from[p + i ..]], or zero where [from] has no
    byte, over [to[offset + i ..]]. *)
Lemma copied_lookup_default (from : Buffer.t) (p offset : Z) (n : nat) (i : Z)
    (to : Buffer.t) (j : nat) :
  0 <= i -> 0 <= offset -> 0 <= p ->
  i + Z.of_nat n + offset <= Buffer.length to ->
  copied from (Int p) offset n i to !! j
  = if (i + offset <=? Z.of_nat j) && (Z.of_nat j <? i + offset + Z.of_nat n)
    then Some (default Byte.x00 (from !! Z.to_nat (Z.of_nat j - offset + p)))
    else to !! j.
Proof.
  revert i to. induction n as [|n IH]; intros i to Hi Ho Hp Hto; cbn [copied].
  - destruct (Z.leb_spec (i + offset) (Z.of_nat j)),
             (Z.ltb_spec (Z.of_nat j) (i + offset + Z.of_nat 0));
      cbn [andb]; (reflexivity || lia).
  - unfold Buffer.length in *.
    assert (Hset : Buffer.set to (Int (i + offset)) (Buffer.get from (Number.add (Int i) (Int p)))
                   = <[Z.to_nat (i + offset) := default Byte.x00 (from !! Z.to_nat (i + p))]> to).
    { unfold Buffer.set, Buffer.get. cbn [Number.add Number.to_int].
      destruct (Z.leb_spec 0 (i + offset)); [|lia].
      destruct (Z.leb_spec 0 (i + p)); [|lia]. reflexivity. }
    rewrite Hset, IH by (rewrite ?length_insert; lia).
    destruct (Z.leb_spec (i + 1 + offset) (Z.of_nat j)),
             (Z.ltb_spec (Z.of_nat j) (i + 1 + offset + Z.of_nat n)),
             (Z.leb_spec (i + offset) (Z.of_nat j)),
             (Z.ltb_spec (Z.of_nat j) (i + offset + Z.of_nat (S n)));
      cbn [andb]; try lia; try reflexivity;
      try (apply list_lookup_insert_ne; lia).
    assert (j = Z.to_nat (i + offset)) as -> by lia.
    rewrite list_lookup_insert_eq by lia.
    do 3 f_equal. lia.
Qed.

(** With two distinct instances the loop of [writeBytes] acts on the
    receiver's storage alone. *)
Lemma for_loop_write_step (this bytes : ref) (src : ByteArray) (offset p : Z) (n : nat) :
  this <> bytes ->
  forall (i : Z) (d : ByteArray) (h : heap),
    h !! bytes = Some src ->
    h !! this = Some d ->
    position d = Int p ->
    for_loop n i (write_step this bytes offset) h
    = (Ret tt,
       <[this := with_buffer (copied (buffer src) (Int offset) p n i (buffer d)) d]> h).
Proof.
  intros Hne. induction n as [|n IH]; intros i d h Hsrc Hd Hp; cbn [for_loop copied].
  - rewrite with_buffer_same, insert_id by assumption. reflexivity.
  - unfold bind at 1. unfold write_step at 1. unfold bind at 1.
    rewrite (on_lookup bytes _ h src Hsrc). unfold gets. cbn [fst snd].
    rewrite (insert_id h bytes src Hsrc).
    rewrite (on_lookup this _ h d Hd). unfold modify. cbn [fst snd].
    rewrite Hp. cbn [Number.add].
    erewrite IH; cycle 1.
    + rewrite lookup_insert_ne by congruence. exact Hsrc.
    + apply lookup_insert_eq.
    + exact Hp.
    + rewrite insert_insert_eq. reflexivity.
Qed.

(** X20. For two distinct instances, a receiver with an integral cursor
    [p >= 0] and an [offset >= 0]: with [n] the source's length less
    [offset] when [length] is 0 and [length] otherwise, [writeBytes]
    never throws; it stores at [p ..] of the receiver the [n] bytes at
    [offset ..] of the source, zero where the source has none, keeps
    the receiver's other bytes, leaves it with [max(length, p + n)]
    bytes and the cursor at [p + n], and does not touch the source. *)
Theorem writeBytes_copies (this bytes : ref) (src dst : ByteArray)
    (p offset length : Z) (h : heap) :
  this <> bytes ->
  h !! bytes = Some src ->
  h !! this = Some dst ->
  position dst = Int p ->
  0 <= p -> 0 <= offset ->
  let n := if length =? 0 then Buffer.length (buffer src) - offset else length in
  exists copy,
    writeBytes this bytes offset length h
    = (Ret tt, <[this := mkByteArray (Int (p + n)) (endian dst) (objectEncoding dst) copy]> h) /\
    Buffer.length copy = Z.max (Buffer.length (buffer dst)) (p + n) /\
    (forall j, 0 <= j < n ->
       copy !! Z.to_nat (p + j)
       = Some (default Byte.x00 (buffer src !! Z.to_nat (offset + j)))) /\
    (forall j : nat, (j < List.length (buffer dst))%nat ->
       ~ (p <= Z.of_nat j < p + n) ->
       copy !! j = buffer dst !! j).
Proof.
  intros Hne Hsrc Hdst Hp Hp0 Ho n.
  assert (Hn : (if length =? 0
                then let! blen := on bytes getLength in ret (Number.sub blen (Int offset))
                else ret (Int length)) h = (Ret (Int n), h)).
  { subst n. destruct (length =? 0); [|reflexivity].
    unfold bind. rewrite (on_unchanged bytes getLength h src _ Hsrc eq_refl). reflexivity. }
  unfold writeBytes. unfold bind at 1. rewrite Hn.
  unfold bind at 1. rewrite (on_lookup this _ h dst Hdst).
  rewrite (expand_run dst p n Hp). cbn [fst snd].
  unfold bind at 1. cbn [trip_count].
  rewrite (for_loop_write_step this bytes src offset p (Z.to_nat n) Hne 0
             (with_buffer (grown (buffer dst) p n) dst) _);
    [| rewrite lookup_insert_ne by congruence; exact Hsrc
     | apply lookup_insert_eq | exact Hp ].
  rewrite insert_insert_eq. cbn [buffer with_buffer].
  erewrite on_lookup by apply lookup_insert_eq.
  unfold advance, modify. cbn [fst snd]. rewrite insert_insert_eq.
  unfold with_position, with_buffer. cbn [position endian objectEncoding buffer].
  rewrite Hp. cbn [Number.add].
  eexists. split; [reflexivity|].
  pose proof (length_grown (buffer dst) p n) as Hgrown.
  split; [|split].
  - unfold Buffer.length at 1. rewrite length_copied. exact Hgrown.
  - intros j Hj. rewrite copied_lookup_default by lia.
    destruct (Z.leb_spec (0 + p) (Z.of_nat (Z.to_nat (p + j)))); [|lia].
    destruct (Z.ltb_spec (Z.of_nat (Z.to_nat (p + j))) (0 + p + Z.of_nat (Z.to_nat n))); [|lia].
    cbn [andb]. do 3 f_equal. lia.
  - intros j Hj Hout.
    destruct (Z.le_gt_cases n 0) as [Hnone|Hsome].
    + replace (Z.to_nat n) with O by lia. cbn [copied].
      apply lookup_grown_old. assumption.
    + rewrite copied_lookup_default by lia.
      destruct (Z.leb_spec (0 + p) (Z.of_nat j)),
               (Z.ltb_spec (Z.of_nat j) (0 + p + Z.of_nat (Z.to_nat n)));
        cbn [andb]; try (apply lookup_grown_old; assumption).
      lia.
Qed.

Lemma writeBytes_copies_witness :
  exists copy,
    writeBytes 2 1 1 4 two_instances
    = (Ret tt, <[2%positive := mkByteArray (Int (1 + 4)) LITTLE_ENDIAN AMF0 copy]> two_instances) /\
    Buffer.length copy = Z.max (Buffer.length (buffer destination_instance)) (1 + 4) /\
    (forall j, 0 <= j < 4 ->
       copy !! Z.to_nat (1 + j)
       = Some (default Byte.x00 (buffer source_instance !! Z.to_nat (1 + j)))) /\
    (forall j : nat, (j < List.length (buffer destination_instance))%nat ->
       ~ (1 <= Z.of_nat j < 1 + 4) ->
       copy !! j = buffer destination_instance !! j).
Proof.
  refine (writeBytes_copies 2 1 source_instance destination_instance 1 1 4
            two_instances _ _ _ _ _ _).
  - discriminate.
  - reflexivity.
  - reflexivity.
  - reflexivity.
  - lia.
  - lia.
Defined.

(** The run behind the example: two bytes come from the source, the two
    asked for beyond its end are zero. *)
Lemma writeBytes_two_instances :
  exec (writeBytes 2 1 1 4) two_instances !! 2%positive
  = Some (mkByteArray (Int 5) LITTLE_ENDIAN AMF0
            [Byte.x09; Byte.x02; Byte.x03; Byte.x00; Byte.x00]).
Proof. vm_compute. reflexivity. Qed.

(** ** Bulk reads: the destination's size, and a read onto itself *)

(** A successful [readBytes] between two distinct instances, in full. *)
Lemma readBytes_run (this bytes : ref) (src dst : ByteArray)
    (p q offset length : Z) (h : heap) :
  this <> bytes ->
  h !! this = Some src ->
  h !! bytes = Some dst ->
  position src = Int p ->
  position dst = Int q ->
  0 <= q ->
  let avail := Buffer.length (buffer src) - p in
  let n := if length =? 0 then avail else length in
  let room := if Buffer.length (buffer dst) <? offset + n
              then grown (buffer dst) q (offset + n) else buffer dst in
  n <= avail ->
  readBytes this bytes offset length h
  = (Ret tt,
     <[this := with_position (Int (p + n)) src]>
       (<[bytes := with_buffer (copied (buffer src) (Int p) offset (Z.to_nat n) 0 room) dst]> h)).
Proof.
  intros Hne Hsrc Hdst Hp Hq Hq0 avail n room Henough.
  pose proof (on_getBytesAvailable this h src p Hsrc Hp) as Havail.
  fold avail in Havail.
  assert (Hn : (if length =? 0 then on this getBytesAvailable else ret (Int length)) h
               = (Ret (Int n), h)).
  { subst n. destruct (length =? 0); [exact Havail|reflexivity]. }
  assert (Hroom : (if Number.ltb (Int (Buffer.length (buffer dst))) (Number.add (Int offset) (Int n))
                   then on bytes (expand (Number.add (Int offset) (Int n)))
                   else ret tt) h
                  = (Ret tt, <[bytes := with_buffer room dst]> h)).
  { cbn [Number.add Number.ltb]. subst room.
    destruct (Z.ltb_spec (Buffer.length (buffer dst)) (offset + n)).
    - rewrite (on_lookup bytes _ h dst Hdst), (expand_run dst q (offset + n) Hq). reflexivity.
    - unfold ret. rewrite with_buffer_same, insert_id by assumption. reflexivity. }
  unfold readBytes. unfold bind at 1. rewrite Hn.
  unfold bind at 1. rewrite Havail. cbn [Number.ltb].
  destruct (Z.ltb_spec avail n) as [Hfew|_]; [lia|].
  unfold bind at 1.
  rewrite (on_unchanged bytes getLength h dst _ Hdst eq_refl).
  unfold bind at 1. rewrite Hroom.
  unfold bind at 1. cbn [trip_count].
  rewrite (for_loop_read_step this bytes src offset (Z.to_nat n) Hne 0
             (with_buffer room dst) _);
    [| rewrite lookup_insert_ne by congruence; exact Hsrc | apply lookup_insert_eq ].
  rewrite insert_insert_eq. cbn [buffer with_buffer].
  erewrite on_lookup by (rewrite lookup_insert_ne by congruence; exact Hsrc).
  unfold advance, modify. cbn [fst snd]. rewrite Hp. cbn [Number.add].
  reflexivity.
Qed.

(** X21. After a successful [readBytes] between two distinct instances
    with integral cursors, a destination that was shorter than
    [offset + n] has [offset + n] bytes plus as many as its own cursor
    [q] counts, since the growth is counted from that cursor; a
    destination long enough keeps its length. *)
Theorem readBytes_destination_length (this bytes : ref) (src dst : ByteArray)
    (p q offset length : Z) (h : heap) :
  this <> bytes ->
  h !! this = Some src ->
  h !! bytes = Some dst ->
  position src = Int p ->
  position dst = Int q ->
  0 <= q ->
  let n := if length =? 0 then Buffer.length (buffer src) - p else length in
  n <= Buffer.length (buffer src) - p ->
  exists dst',
    exec (readBytes this bytes offset length) h !! bytes = Some dst' /\
    Buffer.length (buffer dst')
    = if Buffer.length (buffer dst) <? offset + n
      then offset + n + q
      else Buffer.length (buffer dst).
Proof.
  intros Hne Hsrc Hdst Hp Hq Hq0 n Henough. unfold exec.
  rewrite (readBytes_run this bytes src dst p q offset length h Hne Hsrc Hdst Hp Hq Hq0 Henough).
  cbn [snd]. fold n.
  rewrite lookup_insert_ne by congruence. rewrite lookup_insert_eq.
  eexists. split; [reflexivity|].
  cbn [buffer with_buffer]. unfold Buffer.length at 1. rewrite length_copied.
  pose proof (length_nonneg (buffer dst)).
  destruct (Z.ltb_spec (Buffer.length (buffer dst)) (offset + n)).
  - fold (Buffer.length (grown (buffer dst) q (offset + n))). rewrite length_grown. lia.
  - reflexivity.
Qed.

Lemma readBytes_destination_length_witness :
  exists dst',
    exec (readBytes 1 2 0 0) two_instances !! 2%positive = Some dst' /\
    Buffer.length (buffer dst')
    = if Buffer.length (buffer destination_instance) <? 0 + 2
      then 0 + 2 + 1
      else Buffer.length (buffer destination_instance).
Proof.
  refine (readBytes_destination_length 1 2 source_instance destination_instance
            1 1 0 0 two_instances _ _ _ _ _ _ _).
  - discriminate.
  - reflexivity.
  - reflexivity.
  - reflexivity.
  - reflexivity.
  - lia.
  - vm_compute. discriminate.
Defined.

Lemma for_loop_read_step_self (this : ref) (offset : Z) (n : nat) :
  forall (i : Z) (d : ByteArray) (h : heap),
    h !! this = Some d ->
    for_loop n i (read_step this this offset) h
    = (Ret tt, <[this := with_buffer (shifted (position d) offset n i (buffer d)) d]> h).
Proof.
  induction n as [|n IH]; intros i d h Hd; cbn [for_loop shifted].
  - rewrite with_buffer_same, insert_id by assumption. reflexivity.
  - unfold bind at 1. unfold read_step at 1. unfold bind at 1.
    rewrite (on_lookup this _ h d Hd). cbn [fst snd].
    rewrite (insert_id h this d Hd).
    rewrite (on_lookup this _ h d Hd). unfold modify. cbn [fst snd].
    erewrite IH by apply lookup_insert_eq.
    rewrite insert_insert_eq. reflexivity.
Qed.

Lemma length_shifted pos offset n i buf :
  List.length (shifted pos offset n i buf) = List.length buf.
Proof.
  revert i buf. induction n as [|n IH]; intros i buf; cbn [shifted]; [reflexivity|].
  rewrite IH. unfold Buffer.set. cbn [Number.to_int].
  destruct (0 <=? i + offset); [apply length_insert|reflexivity].
Qed.

(** Copying forward onto the start of the same storage reads bytes no
    earlier round has overwritten. *)
Lemma shifted_lookup (p : Z) (n : nat) (i : Z) (buf : Buffer.t) (j : nat) :
  0 <= i -> 0 <= p ->
  i + Z.of_nat n + p <= Buffer.length buf ->
  shifted (Int p) 0 n i buf !! j
  = if (i <=? Z.of_nat j) && (Z.of_nat j <? i + Z.of_nat n)
    then buf !! Z.to_nat (Z.of_nat j + p)
    else buf !! j.
Proof.
  revert i buf. induction n as [|n IH]; intros i buf Hi Hp Hfit; cbn [shifted].
  - destruct (Z.leb_spec i (Z.of_nat j)), (Z.ltb_spec (Z.of_nat j) (i + Z.of_nat 0));
      cbn [andb]; (reflexivity || lia).
  - unfold Buffer.length in *.
    assert (Hset : Buffer.set buf (Int (i + 0)) (Buffer.get buf (Number.add (Int i) (Int p)))
                   = <[Z.to_nat i := default Byte.x00 (buf !! Z.to_nat (i + p))]> buf).
    { unfold Buffer.set, Buffer.get. cbn [Number.add Number.to_int]. rewrite Z.add_0_r.
      destruct (Z.leb_spec 0 i); [|lia].
      destruct (Z.leb_spec 0 (i + p)); [|lia]. reflexivity. }
    rewrite Hset, IH by (rewrite ?length_insert; lia).
    destruct (lookup_lt_is_Some_2 buf (Z.to_nat (i + p)) ltac:(lia)) as [x Hx].
    rewrite Hx. cbn [default]. unfold id.
    destruct (Z.leb_spec (i + 1) (Z.of_nat j)),
             (Z.ltb_spec (Z.of_nat j) (i + 1 + Z.of_nat n)),
             (Z.leb_spec i (Z.of_nat j)),
             (Z.ltb_spec (Z.of_nat j) (i + Z.of_nat (S n)));
      cbn [andb]; try lia; try reflexivity;
      try (apply list_lookup_insert_ne; lia).
    assert (j = Z.to_nat i) as -> by lia.
    rewrite list_lookup_insert_eq by lia.
    rewrite <- Hx. f_equal. lia.
Qed.

(** X22. [readBytes] with the receiver itself as destination, at the
    default offset and length and an integral cursor [p] inside storage:
    the bytes from [p] on are moved to the front, the last [p] bytes
    stay as they were, the length is unchanged and the one cursor ends
    at the end of storage. *)
Theorem readBytes_self_compacts (this : ref) (src : ByteArray) (p : Z) (h : heap) :
  h !! this = Some src ->
  position src = Int p ->
  0 <= p <= Buffer.length (buffer src) ->
  readBytes this this 0 0 h
  = (Ret tt,
     <[this := mkByteArray (Int (Buffer.length (buffer src))) (endian src) (objectEncoding src)
                 (drop (Z.to_nat p) (buffer src)
                  ++ drop (Z.to_nat (Buffer.length (buffer src) - p)) (buffer src))]> h).
Proof.
  intros Hsrc Hp Hin.
  pose proof (on_getBytesAvailable this h src p Hsrc Hp) as Havail.
  set (n := Buffer.length (buffer src) - p) in *.
  unfold readBytes. cbn [Z.eqb]. unfold bind at 1. rewrite Havail.
  unfold bind at 1. rewrite Havail. cbn [Number.ltb].
  rewrite Z.ltb_irrefl.
  unfold bind at 1.
  rewrite (on_unchanged this getLength h src _ Hsrc eq_refl).
  cbn [Number.add Number.ltb].
  destruct (Z.ltb_spec (Buffer.length (buffer src)) (0 + n)) as [Hbad|_]; [lia|].
  unfold bind at 1. unfold ret at 1.
  unfold bind at 1. cbn [trip_count].
  rewrite (for_loop_read_step_self this 0 (Z.to_nat n) 0 src h Hsrc).
  erewrite on_lookup by apply lookup_insert_eq.
  unfold advance, modify. cbn [fst snd]. rewrite insert_insert_eq.
  unfold with_position, with_buffer. cbn [position endian objectEncoding buffer].
  rewrite Hp. cbn [Number.add].
  do 2 f_equal. f_equal; [f_equal; lia|].
  apply list_eq. intros j.
  rewrite shifted_lookup by (unfold Buffer.length in *; lia).
  unfold Buffer.length in *.
  destruct (Z.leb_spec 0 (Z.of_nat j)); [|lia].
  destruct (Z.ltb_spec (Z.of_nat j) (0 + Z.of_nat (Z.to_nat n))); cbn [andb].
  - rewrite lookup_app_l by (rewrite length_drop; lia).
    rewrite lookup_drop. f_equal. lia.
  - rewrite lookup_app_r by (rewrite length_drop; lia).
    rewrite lookup_drop, length_drop. f_equal. lia.
Qed.

Lemma readBytes_self_compacts_witness :
  readBytes 1 1 0 0 two_instances
  = (Ret tt,
     <[1%positive := mkByteArray (Int 3) BIG_ENDIAN AMF3
                       ([Byte.x02; Byte.x03] ++ [Byte.x03])]> two_instances).
Proof.
  apply (readBytes_self_compacts 1 source_instance 1 two_instances).
  - reflexivity.
  - reflexivity.
  - vm_compute. split; discriminate.
Defined.

(** ** Construction *)

Lemma read_octet_at (b : ByteArray) (i : Z) (x : byte) :
  0 <= i ->
  buffer b !! Z.to_nat i = Some x ->
  (setPosition (Int i) >> readUnsignedByte) b
  = (Ret (Int (Z_of_byte x)), with_position (Int (i + 1)) b).
Proof.
  intros Hi Hx.
  pose proof (lookup_lt_Some _ _ _ Hx) as Hlt.
  unfold bind at 1. unfold setPosition. cbn [Number.leb].
  destruct (Z.leb_spec 0 i); [|lia].
  unfold modify. cbn [fst snd].
  change readUnsignedByte with (read RUnsignedByte).
  rewrite (read_run RUnsignedByte _ i);
    cbn [position buffer with_position read_width]; unfold Buffer.length;
    [|reflexivity|lia|lia].
  cbn [read_advance decoded with_position position buffer endian objectEncoding].
  unfold Buffer.window.
  rewrite (drop_S _ x _ Hx). cbn [take Z.to_nat Pos.to_nat Pos.iter_op Nat.add].
  change (Z.to_nat 1) with 1%nat. cbn [take].
  unfold Buffer.decode, Buffer.be_decode. cbn [fold_left].
  rewrite Z.mul_0_l, Z.add_0_l. reflexivity.
Qed.

(** X23. An instance constructed from an array of integers holds one
    byte for each element, all of them available to read, and the
    unsigned byte read at index [i] is the element there modulo 256. *)
Theorem constructor_of_array (zs : list Z) (i x : Z) :
  0 <= i ->
  zs !! Z.to_nat i = Some x ->
  exists b,
    new_ByteArray (OfArray (map Int zs)) = Ret b /\
    eval getBytesAvailable b = Ret (Int (Z.of_nat (List.length zs))) /\
    eval (setPosition (Int i) >> readUnsignedByte) b = Ret (Int (x mod 256)).
Proof.
  intros Hi Hx. eexists. split; [reflexivity|]. split.
  - unfold eval, getBytesAvailable, getLength, getPosition, bind, gets, ret.
    cbn [fst snd position buffer Number.sub]. unfold Buffer.length.
    rewrite !length_map, Z.sub_0_r. reflexivity.
  - unfold eval. erewrite read_octet_at; [| exact Hi |].
    2:{ cbn [buffer]. rewrite !list_lookup_fmap, Hx. reflexivity. }
    cbn [fst]. rewrite Z_of_byte_of_Z. unfold Number.ToUint32. cbn [Number.trunc].
    change 256 with (2 ^ 8). rewrite mod_mod_pow2 by lia. reflexivity.
Qed.

Lemma constructor_of_array_witness :
  exists b,
    new_ByteArray (OfArray (map Int [1; 258; -1])) = Ret b /\
    eval getBytesAvailable b = Ret (Int (Z.of_nat (List.length [1; 258; -1]))) /\
    eval (setPosition (Int 1) >> readUnsignedByte) b = Ret (Int (258 mod 256)).
Proof.
  apply (constructor_of_array [1; 258; -1] 1 258).
  - lia.
  - reflexivity.
Defined.

(** X24. An instance constructed from a size [n >= 0] holds [n] bytes,
    all of them available to read, and every one of them reads as 0. *)
Theorem constructor_of_size (n i : Z) :
  0 <= i < n ->
  exists b,
    new_ByteArray (OfNumber (Int n)) = Ret b /\
    eval getBytesAvailable b = Ret (Int n) /\
    eval (setPosition (Int i) >> readUnsignedByte) b = Ret (Int 0).
Proof.
  intros Hi.
  assert (Hnew : new_ByteArray (OfNumber (Int n))
                 = Ret (mkByteArray (Int 0) BIG_ENDIAN AMF3 (replicate (Z.to_nat n) Byte.x00))).
  { unfold new_ByteArray, convert, Buffer.alloc. cbn [Number.isInteger Number.leb Number.trunc].
    destruct (Z.leb_spec 0 n); [reflexivity|lia]. }
  eexists. split; [exact Hnew|]. split.
  - unfold eval, getBytesAvailable, getLength, getPosition, bind, gets, ret.
    cbn [fst snd position buffer Number.sub]. unfold Buffer.length.
    rewrite length_replicate, Z.sub_0_r. f_equal. f_equal. lia.
  - unfold eval. rewrite (read_octet_at _ i Byte.x00); [reflexivity | lia |].
    cbn [buffer]. apply lookup_replicate_2. lia.
Qed.

Lemma constructor_of_size_witness :
  exists b,
    new_ByteArray (OfNumber (Int 3)) = Ret b /\
    eval getBytesAvailable b = Ret (Int 3) /\
    eval (setPosition (Int 2) >> readUnsignedByte) b = Ret (Int 0).
Proof.
  apply (constructor_of_size 3 2). lia.
Defined.

(** ** Objects *)

Section ObjectProperties.

Variable value : Type.
Variable AMF0_stringify AMF3_stringify : value -> list number.
Variable AMF0_parse AMF3_parse : Buffer.t -> number -> outcome (number * value).


(** [writeObject] appends the serialized value and adds its length to
    the cursor, wherever the cursor is. *)
Lemma writeObject_run (v : value) (b : ByteArray) :
  writeObject value AMF0_stringify AMF3_stringify v b
  = (Ret tt,
     mkByteArray
       (Number.add (position b)
          (Int (Z.of_nat (List.length (by_encoding (objectEncoding b) AMF0_stringify AMF3_stringify v)))))
       (endian b) (objectEncoding b)
       (buffer b ++ octets (by_encoding (objectEncoding b) AMF0_stringify AMF3_stringify v))).
Proof.
  unfold writeObject, bind, gets, advance, modify, with_position, with_buffer, Buffer.concat,
    octets, by_encoding.
  cbn [fst snd position endian objectEncoding buffer].
  destruct (objectEncoding b); reflexivity.
Qed.

(** X25. With the cursor at the end of storage, an object that is
    written, and that the serializer of the instance's object encoding
    parses back from its own bytes, is returned by [readObject] once the
    cursor is put back where the write began; the cursor is then at the
    end of storage again. *)
Theorem object_round_trip (v : value) (b : ByteArray) :
  at_end b ->
  by_encoding (objectEncoding b) AMF0_parse AMF3_parse (buffer b ++ octets (by_encoding (objectEncoding b) AMF0_stringify AMF3_stringify v))
    (Int (Buffer.length (buffer b)))
  = Ret (Int (Z.of_nat (List.length (by_encoding (objectEncoding b) AMF0_stringify AMF3_stringify v))), v) ->
  let run := writeObject value AMF0_stringify AMF3_stringify v >>
             setPosition (Int (Buffer.length (buffer b))) >>
             readObject value AMF0_parse AMF3_parse in
  eval run b = Ret v /\ at_end (exec run b).
Proof.
  intros Hend Hparse run. unfold at_end in Hend.
  pose proof (length_nonneg (buffer b)) as H0.
  assert (Hrun : run b
    = (Ret v,
       mkByteArray
         (Int (Buffer.length (buffer b)
               + Z.of_nat (List.length (by_encoding (objectEncoding b) AMF0_stringify AMF3_stringify v))))
         (endian b) (objectEncoding b)
         (buffer b ++ octets (by_encoding (objectEncoding b) AMF0_stringify AMF3_stringify v)))).
  { unfold run. unfold bind at 1. unfold bind at 1.
    rewrite writeObject_run. cbn [fst snd].
    unfold setPosition. cbn [Number.leb].
    destruct (Z.leb_spec 0 (Buffer.length (buffer b))); [|lia].
    unfold modify, with_position. cbn [fst snd position endian objectEncoding buffer].
    unfold readObject, getPosition, bind, gets, lift, advance, modify, ret, with_position.
    cbn [fst snd position endian objectEncoding buffer].
    unfold by_encoding in *.
    destruct (objectEncoding b); rewrite Hparse;
      cbn [fst snd position endian objectEncoding buffer Number.add]; reflexivity. }
  unfold eval, exec. rewrite Hrun. cbn [fst snd].
  split; [reflexivity|]. unfold at_end. cbn [position buffer].
  unfold Buffer.length, octets. rewrite length_app, length_map. f_equal. lia.
Qed.

(** X26. [writeObject] never writes at the cursor: with an integral
    cursor [p] before the end of storage, the bytes stored before the
    call are all kept, the serialized value comes after them, and the
    cursor ends short of the end of storage by as much as before. *)
Theorem writeObject_appends (v : value) (b : ByteArray) (p : Z) :
  position b = Int p ->
  p < Buffer.length (buffer b) ->
  let b' := exec (writeObject value AMF0_stringify AMF3_stringify v) b in
  take (List.length (buffer b)) (buffer b') = buffer b /\
  drop (List.length (buffer b)) (buffer b') = octets (by_encoding (objectEncoding b) AMF0_stringify AMF3_stringify v) /\
  eval getBytesAvailable b' = eval getBytesAvailable b /\
  ~ at_end b'.
Proof.
  intros Hp Hlt b'. unfold b', exec. rewrite writeObject_run. cbn [snd buffer].
  split; [apply take_app_length|]. split; [apply drop_app_length|].
  unfold eval, getBytesAvailable, getLength, getPosition, bind, gets, ret, at_end.
  cbn [fst snd position buffer]. rewrite Hp. cbn [Number.add Number.sub].
  unfold Buffer.length, octets in *. rewrite length_app, length_map. split.
  - do 2 f_equal. lia.
  - intros Heq. injection Heq as Heq. lia.
Qed.

End ObjectProperties.

Lemma object_round_trip_witness :
  let run := writeObject Z octet_stringify octet_stringify 7 >>
             setPosition (Int (Buffer.length (buffer empty))) >>
             readObject Z octet_parse octet_parse in
  eval run empty = Ret 7 /\ at_end (exec run empty).
Proof.
  apply (object_round_trip Z octet_stringify octet_stringify octet_parse octet_parse 7 empty).
  - reflexivity.
  - reflexivity.
Defined.

Lemma writeObject_appends_witness :
  let b' := exec (writeObject Z octet_stringify octet_stringify 7) source_instance in
  take (List.length (buffer source_instance)) (buffer b') = buffer source_instance /\
  drop (List.length (buffer source_instance)) (buffer b') = octets (octet_stringify 7) /\
  eval getBytesAvailable b' = eval getBytesAvailable source_instance /\
  ~ at_end b'.
Proof.
  apply (writeObject_appends Z octet_stringify octet_stringify 7 source_instance 1).
  - reflexivity.
  - vm_compute. reflexivity.
Defined.
